(** * Transport control of the libopenmpt players

    A shallow embedding of [modplayer_regroover.c] (command queue, render
    callback, key handlers and the pattern-loop / loop-till-row state
    machine of [main]), of the key handler of [interactive.c] and of the
    pattern-loop enforcement of [modplayer_full.c].

    Conventions.
    - A C [int] is a [Z].  The programs only add or subtract one from
      engine positions and reduce queue indices modulo [MAX_COMMANDS], so no
      arithmetic here leaves the 32-bit range for the values the engine
      hands out; signed overflow is undefined in C and is not given a
      meaning.  C's [%] truncates towards zero: it is [Z.rem].
    - A C truth value is an [int]: zero is false, anything else is true;
      [!x] is [lnot x].
    - The two [double] constants pushed to the engine, [0.0] and [1.0], and
      the pitch factor are rationals ([Qc]); rounding of the pitch factor is
      not modelled.
    - libopenmpt is an external collaborator.  [Engine] holds what the
      players read from it (position cursor, order table, row counts), the
      per-channel volume they push to it, and a log of every mutating call
      they issue.
    - The render thread and the control loop are modelled as atomic steps
      ([audio_callback], [main_iteration]) on the shared state. *)

From Stdlib Require Import Ascii QArith Qcanon.
From stdpp Require Import base numbers list gmap.

Local Open Scope Z_scope.

(** ** C integers used as booleans *)

Definition lnot (x : Z) : Z := if decide (x = 0) then 1 else 0.

(** ** The playback engine (libopenmpt) *)

Inductive EngineCall : Type :=
  | CallSetPosition (o r : Z)
  | CallSetChannelVolume (ch : Z) (vol : Qc).

Record Engine : Type := {
  current_order : Z;
  current_row : Z;
  order_pattern : Z -> Z;
  pattern_num_rows : Z -> Z;
  num_orders : Z;
  channel_volume : gmap Z Qc;
  call_log : list EngineCall
}.

Definition openmpt_module_get_current_order (m : Engine) : Z := current_order m.
Definition openmpt_module_get_current_row (m : Engine) : Z := current_row m.
Definition openmpt_module_get_order_pattern (m : Engine) (o : Z) : Z :=
  order_pattern m o.
Definition openmpt_module_get_current_pattern (m : Engine) : Z :=
  order_pattern m (current_order m).
Definition openmpt_module_get_pattern_num_rows (m : Engine) (p : Z) : Z :=
  pattern_num_rows m p.
Definition openmpt_module_get_num_orders (m : Engine) : Z := num_orders m.

(** The engine is taken at its word: the cursor moves to the requested
    position, and the call is logged. *)
Definition openmpt_module_set_position_order_row (m : Engine) (o r : Z) : Engine :=
  {| current_order := o; current_row := r;
     order_pattern := order_pattern m; pattern_num_rows := pattern_num_rows m;
     num_orders := num_orders m; channel_volume := channel_volume m;
     call_log := call_log m ++ [CallSetPosition o r] |}.

Definition set_channel_volume (m : Engine) (ch : Z) (vol : Qc) : Engine :=
  {| current_order := current_order m; current_row := current_row m;
     order_pattern := order_pattern m; pattern_num_rows := pattern_num_rows m;
     num_orders := num_orders m; channel_volume := <[ch := vol]> (channel_volume m);
     call_log := call_log m ++ [CallSetChannelVolume ch vol] |}.

(** The set-position calls of a log, in order. *)
Definition is_set_position (c : EngineCall) : bool :=
  match c with CallSetPosition _ _ => true | CallSetChannelVolume _ _ => false end.

Definition position_calls (l : list EngineCall) : list EngineCall :=
  filter (fun c => is_set_position c = true) l.

(** ** modplayer_regroover.c: data *)

Inductive PlaybackCommandType : Type :=
  | PLAYBACK_NONE
  | PLAYBACK_QUEUE_ORDER
  | PLAYBACK_LOOP_TILL_ROW.

Record PlaybackCommand : Type := {
  type : PlaybackCommandType;
  order : Z;
  row : Z
}.

Definition MAX_COMMANDS : Z := 8.

Record AudioData : Type := {
  modext : Engine;
  interactive_ok : Z;
  samplerate : Qc;
  pitch_factor : Qc;
  num_channels : Z;
  mute_states : list Z;
  pattern_mode : Z;
  loop_pattern : Z;
  loop_order : Z;
  paused : Z;
  command_queue : list PlaybackCommand;
  command_queue_head : Z;
  command_queue_tail : Z;
  queued_order : Z;
  queued_row : Z;
  has_queued_jump : Z;
  loop_till_row : Z;
  is_looping_till : Z;
  pending_pattern_mode_order : Z
}.

(** Field assignments [ad->f = v]. *)

Definition set_modext (v : Engine) (a : AudioData) : AudioData :=
  {| modext := v; interactive_ok := interactive_ok a;
     samplerate := samplerate a; pitch_factor := pitch_factor a;
     num_channels := num_channels a; mute_states := mute_states a;
     pattern_mode := pattern_mode a; loop_pattern := loop_pattern a;
     loop_order := loop_order a; paused := paused a;
     command_queue := command_queue a;
     command_queue_head := command_queue_head a;
     command_queue_tail := command_queue_tail a;
     queued_order := queued_order a; queued_row := queued_row a;
     has_queued_jump := has_queued_jump a; loop_till_row := loop_till_row a;
     is_looping_till := is_looping_till a;
     pending_pattern_mode_order := pending_pattern_mode_order a |}.

Definition set_pitch_factor (v : Qc) (a : AudioData) : AudioData :=
  {| modext := modext a; interactive_ok := interactive_ok a;
     samplerate := samplerate a; pitch_factor := v;
     num_channels := num_channels a; mute_states := mute_states a;
     pattern_mode := pattern_mode a; loop_pattern := loop_pattern a;
     loop_order := loop_order a; paused := paused a;
     command_queue := command_queue a;
     command_queue_head := command_queue_head a;
     command_queue_tail := command_queue_tail a;
     queued_order := queued_order a; queued_row := queued_row a;
     has_queued_jump := has_queued_jump a; loop_till_row := loop_till_row a;
     is_looping_till := is_looping_till a;
     pending_pattern_mode_order := pending_pattern_mode_order a |}.

Definition set_mute_states (v : list Z) (a : AudioData) : AudioData :=
  {| modext := modext a; interactive_ok := interactive_ok a;
     samplerate := samplerate a; pitch_factor := pitch_factor a;
     num_channels := num_channels a; mute_states := v;
     pattern_mode := pattern_mode a; loop_pattern := loop_pattern a;
     loop_order := loop_order a; paused := paused a;
     command_queue := command_queue a;
     command_queue_head := command_queue_head a;
     command_queue_tail := command_queue_tail a;
     queued_order := queued_order a; queued_row := queued_row a;
     has_queued_jump := has_queued_jump a; loop_till_row := loop_till_row a;
     is_looping_till := is_looping_till a;
     pending_pattern_mode_order := pending_pattern_mode_order a |}.

Definition set_pattern_mode (v : Z) (a : AudioData) : AudioData :=
  {| modext := modext a; interactive_ok := interactive_ok a;
     samplerate := samplerate a; pitch_factor := pitch_factor a;
     num_channels := num_channels a; mute_states := mute_states a;
     pattern_mode := v; loop_pattern := loop_pattern a;
     loop_order := loop_order a; paused := paused a;
     command_queue := command_queue a;
     command_queue_head := command_queue_head a;
     command_queue_tail := command_queue_tail a;
     queued_order := queued_order a; queued_row := queued_row a;
     has_queued_jump := has_queued_jump a; loop_till_row := loop_till_row a;
     is_looping_till := is_looping_till a;
     pending_pattern_mode_order := pending_pattern_mode_order a |}.

Definition set_loop_pattern (v : Z) (a : AudioData) : AudioData :=
  {| modext := modext a; interactive_ok := interactive_ok a;
     samplerate := samplerate a; pitch_factor := pitch_factor a;
     num_channels := num_channels a; mute_states := mute_states a;
     pattern_mode := pattern_mode a; loop_pattern := v;
     loop_order := loop_order a; paused := paused a;
     command_queue := command_queue a;
     command_queue_head := command_queue_head a;
     command_queue_tail := command_queue_tail a;
     queued_order := queued_order a; queued_row := queued_row a;
     has_queued_jump := has_queued_jump a; loop_till_row := loop_till_row a;
     is_looping_till := is_looping_till a;
     pending_pattern_mode_order := pending_pattern_mode_order a |}.

Definition set_loop_order (v : Z) (a : AudioData) : AudioData :=
  {| modext := modext a; interactive_ok := interactive_ok a;
     samplerate := samplerate a; pitch_factor := pitch_factor a;
     num_channels := num_channels a; mute_states := mute_states a;
     pattern_mode := pattern_mode a; loop_pattern := loop_pattern a;
     loop_order := v; paused := paused a; command_queue := command_queue a;
     command_queue_head := command_queue_head a;
     command_queue_tail := command_queue_tail a;
     queued_order := queued_order a; queued_row := queued_row a;
     has_queued_jump := has_queued_jump a; loop_till_row := loop_till_row a;
     is_looping_till := is_looping_till a;
     pending_pattern_mode_order := pending_pattern_mode_order a |}.

Definition set_paused (v : Z) (a : AudioData) : AudioData :=
  {| modext := modext a; interactive_ok := interactive_ok a;
     samplerate := samplerate a; pitch_factor := pitch_factor a;
     num_channels := num_channels a; mute_states := mute_states a;
     pattern_mode := pattern_mode a; loop_pattern := loop_pattern a;
     loop_order := loop_order a; paused := v;
     command_queue := command_queue a;
     command_queue_head := command_queue_head a;
     command_queue_tail := command_queue_tail a;
     queued_order := queued_order a; queued_row := queued_row a;
     has_queued_jump := has_queued_jump a; loop_till_row := loop_till_row a;
     is_looping_till := is_looping_till a;
     pending_pattern_mode_order := pending_pattern_mode_order a |}.

Definition set_command_queue (v : list PlaybackCommand) (a : AudioData) : AudioData :=
  {| modext := modext a; interactive_ok := interactive_ok a;
     samplerate := samplerate a; pitch_factor := pitch_factor a;
     num_channels := num_channels a; mute_states := mute_states a;
     pattern_mode := pattern_mode a; loop_pattern := loop_pattern a;
     loop_order := loop_order a; paused := paused a; command_queue := v;
     command_queue_head := command_queue_head a;
     command_queue_tail := command_queue_tail a;
     queued_order := queued_order a; queued_row := queued_row a;
     has_queued_jump := has_queued_jump a; loop_till_row := loop_till_row a;
     is_looping_till := is_looping_till a;
     pending_pattern_mode_order := pending_pattern_mode_order a |}.

Definition set_command_queue_head (v : Z) (a : AudioData) : AudioData :=
  {| modext := modext a; interactive_ok := interactive_ok a;
     samplerate := samplerate a; pitch_factor := pitch_factor a;
     num_channels := num_channels a; mute_states := mute_states a;
     pattern_mode := pattern_mode a; loop_pattern := loop_pattern a;
     loop_order := loop_order a; paused := paused a;
     command_queue := command_queue a; command_queue_head := v;
     command_queue_tail := command_queue_tail a;
     queued_order := queued_order a; queued_row := queued_row a;
     has_queued_jump := has_queued_jump a; loop_till_row := loop_till_row a;
     is_looping_till := is_looping_till a;
     pending_pattern_mode_order := pending_pattern_mode_order a |}.

Definition set_command_queue_tail (v : Z) (a : AudioData) : AudioData :=
  {| modext := modext a; interactive_ok := interactive_ok a;
     samplerate := samplerate a; pitch_factor := pitch_factor a;
     num_channels := num_channels a; mute_states := mute_states a;
     pattern_mode := pattern_mode a; loop_pattern := loop_pattern a;
     loop_order := loop_order a; paused := paused a;
     command_queue := command_queue a;
     command_queue_head := command_queue_head a; command_queue_tail := v;
     queued_order := queued_order a; queued_row := queued_row a;
     has_queued_jump := has_queued_jump a; loop_till_row := loop_till_row a;
     is_looping_till := is_looping_till a;
     pending_pattern_mode_order := pending_pattern_mode_order a |}.

Definition set_queued_order (v : Z) (a : AudioData) : AudioData :=
  {| modext := modext a; interactive_ok := interactive_ok a;
     samplerate := samplerate a; pitch_factor := pitch_factor a;
     num_channels := num_channels a; mute_states := mute_states a;
     pattern_mode := pattern_mode a; loop_pattern := loop_pattern a;
     loop_order := loop_order a; paused := paused a;
     command_queue := command_queue a;
     command_queue_head := command_queue_head a;
     command_queue_tail := command_queue_tail a; queued_order := v;
     queued_row := queued_row a; has_queued_jump := has_queued_jump a;
     loop_till_row := loop_till_row a; is_looping_till := is_looping_till a;
     pending_pattern_mode_order := pending_pattern_mode_order a |}.

Definition set_queued_row (v : Z) (a : AudioData) : AudioData :=
  {| modext := modext a; interactive_ok := interactive_ok a;
     samplerate := samplerate a; pitch_factor := pitch_factor a;
     num_channels := num_channels a; mute_states := mute_states a;
     pattern_mode := pattern_mode a; loop_pattern := loop_pattern a;
     loop_order := loop_order a; paused := paused a;
     command_queue := command_queue a;
     command_queue_head := command_queue_head a;
     command_queue_tail := command_queue_tail a;
     queued_order := queued_order a; queued_row := v;
     has_queued_jump := has_queued_jump a; loop_till_row := loop_till_row a;
     is_looping_till := is_looping_till a;
     pending_pattern_mode_order := pending_pattern_mode_order a |}.

Definition set_has_queued_jump (v : Z) (a : AudioData) : AudioData :=
  {| modext := modext a; interactive_ok := interactive_ok a;
     samplerate := samplerate a; pitch_factor := pitch_factor a;
     num_channels := num_channels a; mute_states := mute_states a;
     pattern_mode := pattern_mode a; loop_pattern := loop_pattern a;
     loop_order := loop_order a; paused := paused a;
     command_queue := command_queue a;
     command_queue_head := command_queue_head a;
     command_queue_tail := command_queue_tail a;
     queued_order := queued_order a; queued_row := queued_row a;
     has_queued_jump := v; loop_till_row := loop_till_row a;
     is_looping_till := is_looping_till a;
     pending_pattern_mode_order := pending_pattern_mode_order a |}.

Definition set_loop_till_row (v : Z) (a : AudioData) : AudioData :=
  {| modext := modext a; interactive_ok := interactive_ok a;
     samplerate := samplerate a; pitch_factor := pitch_factor a;
     num_channels := num_channels a; mute_states := mute_states a;
     pattern_mode := pattern_mode a; loop_pattern := loop_pattern a;
     loop_order := loop_order a; paused := paused a;
     command_queue := command_queue a;
     command_queue_head := command_queue_head a;
     command_queue_tail := command_queue_tail a;
     queued_order := queued_order a; queued_row := queued_row a;
     has_queued_jump := has_queued_jump a; loop_till_row := v;
     is_looping_till := is_looping_till a;
     pending_pattern_mode_order := pending_pattern_mode_order a |}.

Definition set_is_looping_till (v : Z) (a : AudioData) : AudioData :=
  {| modext := modext a; interactive_ok := interactive_ok a;
     samplerate := samplerate a; pitch_factor := pitch_factor a;
     num_channels := num_channels a; mute_states := mute_states a;
     pattern_mode := pattern_mode a; loop_pattern := loop_pattern a;
     loop_order := loop_order a; paused := paused a;
     command_queue := command_queue a;
     command_queue_head := command_queue_head a;
     command_queue_tail := command_queue_tail a;
     queued_order := queued_order a; queued_row := queued_row a;
     has_queued_jump := has_queued_jump a; loop_till_row := loop_till_row a;
     is_looping_till := v;
     pending_pattern_mode_order := pending_pattern_mode_order a |}.

Definition set_pending_pattern_mode_order (v : Z) (a : AudioData) : AudioData :=
  {| modext := modext a; interactive_ok := interactive_ok a;
     samplerate := samplerate a; pitch_factor := pitch_factor a;
     num_channels := num_channels a; mute_states := mute_states a;
     pattern_mode := pattern_mode a; loop_pattern := loop_pattern a;
     loop_order := loop_order a; paused := paused a;
     command_queue := command_queue a;
     command_queue_head := command_queue_head a;
     command_queue_tail := command_queue_tail a;
     queued_order := queued_order a; queued_row := queued_row a;
     has_queued_jump := has_queued_jump a; loop_till_row := loop_till_row a;
     is_looping_till := is_looping_till a; pending_pattern_mode_order := v |}.

(** ** modplayer_regroover.c: utilities, command queue, render callback *)

(** Array reads.  [mute_states] has [num_channels] cells and
    [command_queue] has [MAX_COMMANDS]; a read outside the array is
    undefined in C and gives a default here (a write outside it, through
    stdpp's list insert, changes nothing). *)
Definition mute_state_at (ms : list Z) (ch : Z) : Z :=
  default 0 (ms !! Z.to_nat ch).

Definition no_command : PlaybackCommand :=
  {| type := PLAYBACK_NONE; order := 0; row := 0 |}.

Definition command_at (q : list PlaybackCommand) (i : Z) : PlaybackCommand :=
  default no_command (q !! Z.to_nat i).

(** [muted ? 0.0 : 1.0] *)
Definition gain_of (muted : Z) : Qc :=
  if decide (muted ≠ 0) then 0%Qc else 1%Qc.

Definition reapply_mutes (ad : AudioData) : AudioData :=
  if decide (interactive_ok ad = 0) then ad
  else
    set_modext
      (foldl (fun m ch =>
                set_channel_volume m ch (gain_of (mute_state_at (mute_states ad) ch)))
             (modext ad) (seqZ 0 (num_channels ad)))
      ad.

(** [if (ad->interactive_ok) reapply_mutes(ad);] *)
Definition reapply_mutes_if_ok (ad : AudioData) : AudioData :=
  if decide (interactive_ok ad ≠ 0) then reapply_mutes ad else ad.

Definition enqueue_command (ad : AudioData) (t : PlaybackCommandType) (o r : Z)
  : AudioData :=
  let next_tail := Z.rem (command_queue_tail ad + 1) MAX_COMMANDS in
  if decide (next_tail ≠ command_queue_head ad) then
    let slot := Z.to_nat (command_queue_tail ad) in
    let ad := set_command_queue
                (<[slot := {| type := t; order := o; row := r |}]> (command_queue ad)) ad in
    set_command_queue_tail next_tail ad
  else ad.

(** The [switch] of [process_commands]: what one dequeued command does. *)
Definition apply_command (ad : AudioData) (cmd : PlaybackCommand) : AudioData :=
  match type cmd with
  | PLAYBACK_QUEUE_ORDER =>
      if decide (pattern_mode ad ≠ 0) then
        set_pending_pattern_mode_order (order cmd) ad
      else
        let ad := set_queued_order (order cmd) ad in
        let ad := set_queued_row (row cmd) ad in
        set_has_queued_jump 1 ad
  | PLAYBACK_LOOP_TILL_ROW =>
      let ad := set_loop_order (order cmd) ad in
      let ad := set_loop_pattern
                  (openmpt_module_get_order_pattern (modext ad) (order cmd)) ad in
      let ad := set_loop_till_row (row cmd) ad in
      let ad := set_is_looping_till 1 ad in
      let ad := set_modext
                  (openmpt_module_set_position_order_row (modext ad) (order cmd) 0) ad in
      reapply_mutes_if_ok ad
  | PLAYBACK_NONE => ad
  end.

(** One turn of the [while] of [process_commands]. *)
Definition process_one (ad : AudioData) : AudioData :=
  let cmd := command_at (command_queue ad) (command_queue_head ad) in
  let ad := apply_command ad cmd in
  set_command_queue_head (Z.rem (command_queue_head ad + 1) MAX_COMMANDS) ad.

(** The loop itself; [None] when the fuel runs out before [head] meets
    [tail]. *)
Fixpoint process_commands (fuel : nat) (ad : AudioData) : option AudioData :=
  if decide (command_queue_head ad = command_queue_tail ad) then Some ad
  else
    match fuel with
    | O => None
    | S fuel' => process_commands fuel' (process_one ad)
    end.

(** What the callback leaves in the output stream. *)
Inductive StreamFill : Type := Silence | Rendered.

(** [openmpt_module_read_interleaved_stereo]: the engine renders, moving
    its cursor as it pleases, and reports the number of frames. *)
Definition Renderer : Type := Engine -> Qc -> Z -> Engine * Z.

(** Lines 104-110 of [audio_callback]: the one-shot jump of song mode. *)
Definition consume_queued_jump (data : AudioData) : AudioData :=
  if decide (has_queued_jump data ≠ 0) then
    let data := set_modext
                  (openmpt_module_set_position_order_row
                     (modext data) (queued_order data) (queued_row data)) data in
    let data := reapply_mutes_if_ok data in
    set_has_queued_jump 0 data
  else data.

(** Lines 112-125 of [audio_callback]: silence when paused, else render. *)
Definition render_stream (read : Renderer) (len : Z) (data : AudioData)
  : AudioData * StreamFill :=
  let frames := len `quot` 4 in
  if decide (paused data ≠ 0) then (data, Silence)
  else
    let '(m, count) := read (modext data) (samplerate data * pitch_factor data)%Qc frames in
    (set_modext m data, if decide (count = 0) then Silence else Rendered).

Definition audio_callback (read : Renderer) (fuel : nat) (len : Z) (data : AudioData)
  : option (AudioData * StreamFill) :=
  match process_commands fuel data with
  | None => None
  | Some data => Some (render_stream read len (consume_queued_jump data))
  end.

(** ** modplayer_regroover.c: the control loop of [main] *)

(** The lines [main] prints inside its loop, with their arguments. *)
Inductive Message : Type :=
  | MsgPlayback (is_paused : Z)
  | MsgImmediateRetrigger (o : Z)
  | MsgNextOrderQueued (o : Z)
  | MsgPreviousOrderQueued (o : Z)
  | MsgLoopTillRowQueued (o r : Z)
  | MsgPatternModeOn (pat o : Z)
  | MsgSongModeOn
  | MsgChannel (number muted : Z)
  | MsgAllChannelsMuted
  | MsgAllChannelsUnmuted
  | MsgPitchFactor (f : Qc)
  | MsgPatternModeJumping (pat o : Z)
  | MsgPatternModeLooping (pat o : Z)
  | MsgLoopTillRowFinished (o r : Z)
  | MsgLoopingBack (o : Z)
  | MsgJumped (o r : Z).

(** The locals of [main] that live across iterations: the shared
    [AudioData], the static [prev_row], the [running] flag and what has been
    printed. *)
Record MainState : Type := {
  ad : AudioData;
  prev_row : Z;
  running : Z;
  stdout : list Message
}.

Definition set_ad (v : AudioData) (s : MainState) : MainState :=
  {| ad := v; prev_row := prev_row s; running := running s; stdout := stdout s |}.

Definition set_prev_row (v : Z) (s : MainState) : MainState :=
  {| ad := ad s; prev_row := v; running := running s; stdout := stdout s |}.

Definition set_running (v : Z) (s : MainState) : MainState :=
  {| ad := ad s; prev_row := prev_row s; running := v; stdout := stdout s |}.

Definition printf (m : Message) (s : MainState) : MainState :=
  {| ad := ad s; prev_row := prev_row s; running := running s;
     stdout := stdout s ++ [m] |}.

(** A character constant as the [int] it is in C. *)
Definition chr (c : ascii) : Z := Z.of_N (N_of_ascii c).
Arguments chr c%_char.

Definition KEY_ESC : Z := 27.

(** [pitch_factor *= 1.05] and [pitch_factor /= 1.05] *)
Definition pitch_step : Qc := Q2Qc (105 # 100).

(** The body shared by the [m] and [u] keys:
    [mute_states[ch] = v; set_channel_volume(modext, ch, vol)] for every
    channel. *)
Definition set_all_channels (v : Z) (vol : Qc) (a : AudioData) : AudioData :=
  foldl (fun a ch =>
           let a := set_mute_states (<[Z.to_nat ch := v]> (mute_states a)) a in
           set_modext (set_channel_volume (modext a) ch vol) a)
        a (seqZ 0 (num_channels a)).

(** The body of the [1]-[9] branch, lines 329-336. *)
Definition toggle_channel (ch : Z) (s : MainState) : MainState :=
  let a := ad s in
  if decide (ch < num_channels a) then
    let a := set_mute_states
               (<[Z.to_nat ch := lnot (mute_state_at (mute_states a) ch)]> (mute_states a)) a in
    let a := set_modext
               (set_channel_volume (modext a) ch
                  (gain_of (mute_state_at (mute_states a) ch))) a in
    printf (MsgChannel (ch + 1) (mute_state_at (mute_states a) ch)) (set_ad a s)
  else s.

(** Lines 289-356: the reaction to a key [k], which is not [-1]. *)
Definition handle_key (k : Z) (s : MainState) : MainState :=
  let a := ad s in
  if bool_decide (k = KEY_ESC) || bool_decide (k = chr "q") || bool_decide (k = chr "Q") then
    set_running 0 s
  else if bool_decide (k = chr " ") then
    let a := set_paused (lnot (paused a)) a in
    printf (MsgPlayback (paused a)) (set_ad a s)
  else if bool_decide (k = chr "r") || bool_decide (k = chr "R") then
    let cur_order := openmpt_module_get_current_order (modext a) in
    let a := set_modext (openmpt_module_set_position_order_row (modext a) cur_order 0) a in
    let a := reapply_mutes_if_ok a in
    printf (MsgImmediateRetrigger cur_order) (set_ad a s)
  else if bool_decide (k = chr "N") || bool_decide (k = chr "n") then
    let cur_order := openmpt_module_get_current_order (modext a) in
    let next_order := cur_order + 1 in
    if decide (next_order < openmpt_module_get_num_orders (modext a)) then
      let a := enqueue_command a PLAYBACK_QUEUE_ORDER next_order 0 in
      printf (MsgNextOrderQueued next_order) (set_ad a s)
    else s
  else if bool_decide (k = chr "P") || bool_decide (k = chr "p") then
    let cur_order := openmpt_module_get_current_order (modext a) in
    let prev_order := if decide (cur_order > 0) then cur_order - 1 else 0 in
    let a := enqueue_command a PLAYBACK_QUEUE_ORDER prev_order 0 in
    printf (MsgPreviousOrderQueued prev_order) (set_ad a s)
  else if bool_decide (k = chr "j") || bool_decide (k = chr "J") then
    let cur_order := openmpt_module_get_current_order (modext a) in
    let cur_row := openmpt_module_get_current_row (modext a) in
    let a := enqueue_command a PLAYBACK_LOOP_TILL_ROW cur_order cur_row in
    printf (MsgLoopTillRowQueued cur_order cur_row) (set_ad a s)
  else if bool_decide (k = chr "S") || bool_decide (k = chr "s") then
    let a := set_pattern_mode (lnot (pattern_mode a)) a in
    if decide (pattern_mode a ≠ 0) then
      let a := set_loop_order (openmpt_module_get_current_order (modext a)) a in
      let a := set_loop_pattern (openmpt_module_get_current_pattern (modext a)) a in
      let s := printf (MsgPatternModeOn (loop_pattern a) (loop_order a)) (set_ad a s) in
      set_ad (set_pending_pattern_mode_order (-1) (ad s)) s
    else printf MsgSongModeOn (set_ad a s)
  else if bool_decide (interactive_ok a ≠ 0) && bool_decide (chr "1" <= k)
          && bool_decide (k <= chr "9") then
    toggle_channel (k - chr "1") s
  else if bool_decide (interactive_ok a ≠ 0)
          && (bool_decide (k = chr "m") || bool_decide (k = chr "M")) then
    printf MsgAllChannelsMuted (set_ad (set_all_channels 1 0%Qc a) s)
  else if bool_decide (interactive_ok a ≠ 0)
          && (bool_decide (k = chr "u") || bool_decide (k = chr "U")) then
    printf MsgAllChannelsUnmuted (set_ad (set_all_channels 0 1%Qc a) s)
  else if bool_decide (k = chr "+") || bool_decide (k = chr "=") then
    let a := set_pitch_factor (pitch_factor a * pitch_step)%Qc a in
    printf (MsgPitchFactor (pitch_factor a)) (set_ad a s)
  else if bool_decide (k = chr "-") then
    let a := set_pitch_factor (pitch_factor a / pitch_step)%Qc a in
    printf (MsgPitchFactor (pitch_factor a)) (set_ad a s)
  else s.

(** Lines 365-379: wrap detection in pattern mode, with the observation
    [cur_row] and the row count [rows] of the looped pattern. *)
Definition pattern_wrap (cur_row rows : Z) (s : MainState) : MainState :=
  let a := ad s in
  if bool_decide (prev_row s = rows - 1) && bool_decide (cur_row = 0) then
    if bool_decide (pending_pattern_mode_order a ≠ -1)
       && bool_decide (pending_pattern_mode_order a ≠ loop_order a) then
      let a := set_loop_order (pending_pattern_mode_order a) a in
      let a := set_loop_pattern
                 (openmpt_module_get_order_pattern (modext a) (loop_order a)) a in
      let a := set_modext
                 (openmpt_module_set_position_order_row (modext a) (loop_order a) 0) a in
      let a := reapply_mutes_if_ok a in
      let s := printf (MsgPatternModeJumping (loop_pattern a) (loop_order a)) (set_ad a s) in
      set_ad (set_pending_pattern_mode_order (-1) (ad s)) s
    else
      let a := set_modext
                 (openmpt_module_set_position_order_row (modext a) (loop_order a) 0) a in
      let a := reapply_mutes_if_ok a in
      printf (MsgPatternModeLooping (loop_pattern a) (loop_order a)) (set_ad a s)
  else s.

(** Lines 382-387: snap back when the observed order is not the loop
    order. *)
Definition pattern_snap_back (cur_order : Z) (s : MainState) : MainState :=
  let a := ad s in
  if decide (cur_order ≠ loop_order a) then
    let a := set_modext
               (openmpt_module_set_position_order_row (modext a) (loop_order a) 0) a in
    let a := reapply_mutes_if_ok a in
    set_prev_row (-1) (set_ad a s)
  else s.

(** Lines 359-388: the pattern-mode branch. *)
Definition pattern_loop_block (s : MainState) : MainState :=
  let cur_order := openmpt_module_get_current_order (modext (ad s)) in
  let cur_row := openmpt_module_get_current_row (modext (ad s)) in
  let rows := openmpt_module_get_pattern_num_rows (modext (ad s)) (loop_pattern (ad s)) in
  let s := pattern_wrap cur_row rows s in
  let s := set_prev_row cur_row s in
  pattern_snap_back cur_order s.

(** Lines 390-407: the loop-till-row branch. *)
Definition loop_till_row_block (s : MainState) : MainState :=
  let a := ad s in
  let cur_order := openmpt_module_get_current_order (modext a) in
  let cur_row := openmpt_module_get_current_row (modext a) in
  let rows := openmpt_module_get_pattern_num_rows (modext a) (loop_pattern a) in
  if decide (cur_order = loop_order a) then
    let s :=
      if decide (cur_row = loop_till_row a) then
        printf (MsgLoopTillRowFinished cur_order cur_row)
               (set_ad (set_is_looping_till 0 a) s)
      else if bool_decide (prev_row s = rows - 1) && bool_decide (cur_row = 0) then
        let a := set_modext
                   (openmpt_module_set_position_order_row (modext a) (loop_order a) 0) a in
        let a := reapply_mutes_if_ok a in
        printf (MsgLoopingBack (loop_order a)) (set_ad a s)
      else s in
    set_prev_row cur_row s
  else set_prev_row (-1) s.

(** Lines 408-413: the queued jump of song mode, seen from the control
    loop. *)
Definition queued_jump_block (s : MainState) : MainState :=
  let a := ad s in
  let a := set_modext
             (openmpt_module_set_position_order_row
                (modext a) (queued_order a) (queued_row a)) a in
  let a := reapply_mutes_if_ok a in
  let a := set_has_queued_jump 0 a in
  printf (MsgJumped (queued_order a) (queued_row a)) (set_ad a s).

(** Lines 358-413: the state machine polled on every iteration. *)
Definition transport (s : MainState) : MainState :=
  let a := ad s in
  if bool_decide (pattern_mode a ≠ 0) && bool_decide (is_looping_till a = 0) then
    pattern_loop_block s
  else if decide (is_looping_till a ≠ 0) then loop_till_row_block s
  else if decide (has_queued_jump a ≠ 0) then queued_jump_block s
  else s.

(** One turn of [while (running)]: [k] is what [read_key_nonblocking]
    returned. *)
Definition main_iteration (k : Z) (s : MainState) : MainState :=
  let s := if decide (k ≠ -1) then handle_key k s else s in
  transport s.

(** ** interactive.c: the key handler of [main] *)

Module Interactive.

Record AudioData : Type := {
  modext : Engine;
  interactive_ok : Z;
  samplerate : Qc;
  num_channels : Z;
  mute_states : list Z
}.

Definition set_modext (v : Engine) (a : AudioData) : AudioData :=
  {| modext := v; interactive_ok := interactive_ok a; samplerate := samplerate a;
     num_channels := num_channels a; mute_states := mute_states a |}.

Definition set_mute_states (v : list Z) (a : AudioData) : AudioData :=
  {| modext := modext a; interactive_ok := interactive_ok a;
     samplerate := samplerate a; num_channels := num_channels a;
     mute_states := v |}.

(** The [DEBUG:] lines; the channel name, which comes from the engine, is
    left out of [DebugChannel]. *)
Inductive Message : Type :=
  | DebugQuit
  | DebugChannel (number muted : Z)
  | DebugChannelOutOfRange (number channels : Z)
  | DebugMuteAll
  | DebugUnmuteAll
  | DebugKeyIgnored (k : Z).

Record MainState : Type := {
  ad : AudioData;
  running : Z;
  stdout : list Message
}.

Definition set_ad (v : AudioData) (s : MainState) : MainState :=
  {| ad := v; running := running s; stdout := stdout s |}.

Definition set_running (v : Z) (s : MainState) : MainState :=
  {| ad := ad s; running := v; stdout := stdout s |}.

Definition printf (m : Message) (s : MainState) : MainState :=
  {| ad := ad s; running := running s; stdout := stdout s ++ [m] |}.

Definition set_all_channels (v : Z) (vol : Qc) (a : AudioData) : AudioData :=
  foldl (fun a ch =>
           let a := set_mute_states (<[Z.to_nat ch := v]> (mute_states a)) a in
           set_modext (set_channel_volume (modext a) ch vol) a)
        a (seqZ 0 (num_channels a)).

(** The body of the [1]-[9] branch, lines 210-221. *)
Definition toggle_channel (ch : Z) (s : MainState) : MainState :=
  let a := ad s in
  if decide (ch < num_channels a) then
    let a := set_mute_states
               (<[Z.to_nat ch := lnot (mute_state_at (mute_states a) ch)]> (mute_states a)) a in
    let a := set_modext
               (set_channel_volume (modext a) ch
                  (gain_of (mute_state_at (mute_states a) ch))) a in
    printf (DebugChannel (ch + 1) (mute_state_at (mute_states a) ch)) (set_ad a s)
  else printf (DebugChannelOutOfRange (ch + 1) (num_channels a)) s.

(** Lines 204-237: the reaction to a key [k], which is not [-1]. *)
Definition handle_key (k : Z) (s : MainState) : MainState :=
  let a := ad s in
  if bool_decide (k = 27) || bool_decide (k = chr "q") || bool_decide (k = chr "Q") then
    set_running 0 (printf DebugQuit s)
  else if bool_decide (interactive_ok a ≠ 0) && bool_decide (chr "1" <= k)
          && bool_decide (k <= chr "9") then
    toggle_channel (k - chr "1") s
  else if bool_decide (interactive_ok a ≠ 0)
          && (bool_decide (k = chr "m") || bool_decide (k = chr "M")) then
    let s := printf DebugMuteAll s in
    set_ad (set_all_channels 1 0%Qc (ad s)) s
  else if bool_decide (interactive_ok a ≠ 0)
          && (bool_decide (k = chr "u") || bool_decide (k = chr "U")) then
    let s := printf DebugUnmuteAll s in
    set_ad (set_all_channels 0 1%Qc (ad s)) s
  else printf (DebugKeyIgnored k) s.

End Interactive.

(** ** modplayer_full.c: pattern-loop enforcement

  This player has no command queue: the control loop raises
  [do_pattern_loop] and the render callback performs the jump. *)

Module Full.

Record AudioData : Type := {
  modext : Engine;
  interactive_ok : Z;
  num_channels : Z;
  mute_states : list Z;
  pattern_mode : Z;
  loop_pattern : Z;
  loop_order : Z;
  paused : Z;
  do_pattern_loop : Z
}.

Definition set_modext (v : Engine) (a : AudioData) : AudioData :=
  {| modext := v; interactive_ok := interactive_ok a;
     num_channels := num_channels a; mute_states := mute_states a;
     pattern_mode := pattern_mode a; loop_pattern := loop_pattern a;
     loop_order := loop_order a; paused := paused a;
     do_pattern_loop := do_pattern_loop a |}.

Definition set_do_pattern_loop (v : Z) (a : AudioData) : AudioData :=
  {| modext := modext a; interactive_ok := interactive_ok a;
     num_channels := num_channels a; mute_states := mute_states a;
     pattern_mode := pattern_mode a; loop_pattern := loop_pattern a;
     loop_order := loop_order a; paused := paused a;
     do_pattern_loop := v |}.

Definition reapply_mutes (ad : AudioData) : AudioData :=
  if decide (interactive_ok ad = 0) then ad
  else
    set_modext
      (foldl (fun m ch =>
                set_channel_volume m ch (gain_of (mute_state_at (mute_states ad) ch)))
             (modext ad) (seqZ 0 (num_channels ad)))
      ad.

(** Lines 67-74 of [audio_callback]: the deferred jump. *)
Definition deferred_pattern_loop (data : AudioData) : AudioData :=
  if decide (do_pattern_loop data ≠ 0) then
    let data := set_modext
                  (openmpt_module_set_position_order_row
                     (modext data) (loop_order data) 0) data in
    let data := if decide (interactive_ok data ≠ 0) then reapply_mutes data else data in
    set_do_pattern_loop 0 data
  else data.

(** Lines 261-278 of [main], on the shared data and the static
    [prev_row]. *)
Definition pattern_loop_block (s : AudioData * Z) : AudioData * Z :=
  let '(a, prev_row) := s in
  if decide (pattern_mode a ≠ 0) then
    let cur_order := openmpt_module_get_current_order (modext a) in
    let cur_row := openmpt_module_get_current_row (modext a) in
    let rows := openmpt_module_get_pattern_num_rows (modext a) (loop_pattern a) in
    if decide (cur_order = loop_order a) then
      let a := if bool_decide (prev_row = rows - 1) && bool_decide (cur_row = 0)
               then set_do_pattern_loop 1 a else a in
      (a, cur_row)
    else (set_do_pattern_loop 1 a, -1)
  else (a, prev_row).

End Full.

(** * Vocabulary of the statements *)

(** ** The command queue *)

(** The indices stay inside the ring and the ring has its eight cells. *)
Definition queue_wf (ad : AudioData) : Prop :=
  0 <= command_queue_head ad < MAX_COMMANDS
  ∧ 0 <= command_queue_tail ad < MAX_COMMANDS
  ∧ length (command_queue ad) = Z.to_nat MAX_COMMANDS.

(** Number of commands between [head] and [tail]. *)
Definition occupancy (ad : AudioData) : Z :=
  (command_queue_tail ad - command_queue_head ad) `mod` MAX_COMMANDS.

(** The commands between [head] and [tail], oldest first. *)
Definition pending_commands (ad : AudioData) : list PlaybackCommand :=
  (fun i => command_at (command_queue ad) ((command_queue_head ad + i) `mod` MAX_COMMANDS))
    <$> seqZ 0 (occupancy ad).

(** [enqueue_command] on a command given as a whole. *)
Definition enqueue (ad : AudioData) (c : PlaybackCommand) : AudioData :=
  enqueue_command ad (type c) (order c) (row c).

(** A run of [enqueue_command] calls with no drain in between. *)
Definition enqueue_all (ad : AudioData) (cmds : list PlaybackCommand) : AudioData :=
  foldl enqueue ad cmds.

(** What a drain must produce: the commands applied oldest first, then
    [head] on [tail]. *)
Definition drained (ad : AudioData) : AudioData :=
  set_command_queue_head (command_queue_tail ad)
    (foldl apply_command ad (pending_commands ad)).

(** ** The engine seen through its calls *)

(** The position cursor. *)
Definition cursor (m : Engine) : Z * Z := (current_order m, current_row m).

(** The set-position calls logged between two states of the engine. *)
Definition jumps_issued (before after : Engine) (calls : list EngineCall) : Prop :=
  position_calls (call_log after) = position_calls (call_log before) ++ calls.

(** A step that neither moves the cursor nor logs a set-position call. *)
Definition cursor_kept (before after : Engine) : Prop :=
  cursor after = cursor before
  ∧ position_calls (call_log after) = position_calls (call_log before).

(** The channel loop of [reapply_mutes], over any list of channels. *)
Definition push_volumes (ms : list Z) (m : Engine) (chs : list Z) : Engine :=
  foldl (fun m ch => set_channel_volume m ch (gain_of (mute_state_at ms ch))) m chs.

(** Every channel of the mute vector has its volume in the engine. *)
Definition mutes_applied (a : AudioData) : Prop :=
  ∀ ch, 0 <= ch < num_channels a →
    channel_volume (modext a) !! ch = Some (gain_of (mute_state_at (mute_states a) ch)).

(** The engine that [if (interactive_ok) reapply_mutes(ad)] leaves. *)
Definition reapplied (a : AudioData) : Engine := modext (reapply_mutes_if_ok a).

(** ** The tests of the pattern-loop branch *)

(** The wrap test of line 365. *)
Definition wraps (s : MainState) : bool :=
  bool_decide (prev_row s
               = pattern_num_rows (modext (ad s)) (loop_pattern (ad s)) - 1)
  && bool_decide (current_row (modext (ad s)) = 0).

(** A wrap on which the pending order is taken as the new loop order
    (lines 365-366). *)
Definition adopts (s : MainState) : bool :=
  wraps s
  && (bool_decide (pending_pattern_mode_order (ad s) ≠ -1)
      && bool_decide (pending_pattern_mode_order (ad s) ≠ loop_order (ad s))).

(** The loop order once the wrap test is done. *)
Definition loop_target (s : MainState) : Z :=
  if adopts s then pending_pattern_mode_order (ad s) else loop_order (ad s).

(** * Concrete sessions *)

(** A module of four orders, order [o] playing pattern [o], eight rows per
    pattern, at its start. *)
Definition demo_engine : Engine :=
  {| current_order := 0; current_row := 0;
     order_pattern := fun o => o; pattern_num_rows := fun _ => 8;
     num_orders := 4; channel_volume := ∅; call_log := [] |}.

(** The state [main] builds before its loop, lines 216-245. *)
Definition initial_audio_data (m : Engine) (channels ok : Z) : AudioData :=
  {| modext := m; interactive_ok := ok;
     samplerate := Q2Qc 48000; pitch_factor := 1%Qc;
     num_channels := channels; mute_states := replicate (Z.to_nat channels) 0;
     pattern_mode := 0; loop_pattern := 0; loop_order := 0; paused := 1;
     command_queue := replicate (Z.to_nat MAX_COMMANDS) no_command;
     command_queue_head := 0; command_queue_tail := 0;
     queued_order := 0; queued_row := 0; has_queued_jump := 0;
     loop_till_row := 0; is_looping_till := 0;
     pending_pattern_mode_order := -1 |}.

Definition initial_main_state (a : AudioData) : MainState :=
  {| ad := a; prev_row := -1; running := 1; stdout := [] |}.

(** Three channels, the interactive extension present. *)
Definition demo_ad : AudioData := initial_audio_data demo_engine 3 1.

Definition demo_main : MainState := initial_main_state demo_ad.

(** Channels 1 and 3 muted. *)
Definition demo_muted : AudioData := set_mute_states [1; 0; 1] demo_ad.

Definition queue_order (o : Z) : PlaybackCommand :=
  {| type := PLAYBACK_QUEUE_ORDER; order := o; row := 0 |}.

Definition loop_till (o r : Z) : PlaybackCommand :=
  {| type := PLAYBACK_LOOP_TILL_ROW; order := o; row := r |}.

Definition nine_commands : list PlaybackCommand := queue_order <$> seqZ 1 9.

Definition three_commands : list PlaybackCommand :=
  [queue_order 1; loop_till 2 5; queue_order 3].

(** The engine once it has played on to order [o], row [r]. *)
Definition engine_at (o r : Z) (m : Engine) : Engine :=
  {| current_order := o; current_row := r;
     order_pattern := order_pattern m; pattern_num_rows := pattern_num_rows m;
     num_orders := num_orders m; channel_volume := channel_volume m;
     call_log := call_log m |}.

(** The control loop finding the engine at [(o, r)]. *)
Definition seen_at (o r : Z) (s : MainState) : MainState :=
  set_ad (set_modext (engine_at o r (modext (ad s))) (ad s)) s.

(** Pattern mode on order 0 of the demo module, with the engine seen at
    [(o, r)], the previous row [prev] and the pending order [pend]. *)
Definition pattern_state (o r prev pend : Z) : MainState :=
  set_prev_row prev
    (initial_main_state
       (set_pending_pattern_mode_order pend
          (set_pattern_mode 1 (set_modext (engine_at o r demo_engine) demo_ad)))).

(** Loop-till-row on order 2 of the demo module up to row [stop], with the
    engine seen at [(o, r)] and the previous row [prev]. *)
Definition loop_till_row_state (o r prev stop : Z) : MainState :=
  set_prev_row prev
    (initial_main_state
       (set_is_looping_till 1
          (set_loop_till_row stop
             (set_loop_pattern 2
                (set_loop_order 2 (set_modext (engine_at o r demo_engine) demo_ad)))))).

(** The wrap on which order 1, pending and just reached by the engine, is
    taken as the loop order. *)
Definition switching_wrap : MainState := pattern_state 1 0 7 1.

(** Row 5 of order 2 is awaited and the engine, past the last row of the
    pattern, is on row 0 of order 3. *)
Definition past_the_loop : MainState := loop_till_row_state 3 0 7 5.

(** Song mode, the engine seen at [(2, 5)]. *)
Definition playing_at_2_5 : MainState :=
  initial_main_state (set_modext (engine_at 2 5 demo_engine) demo_ad).

(** A renderer that produces no frame and leaves the engine where it is. *)
Definition silent_renderer : Renderer := fun m _ _ => (m, 0).

(** * Vocabulary for the drain *)

Definition is_queue_order (c : PlaybackCommand) : bool :=
  match type c with PLAYBACK_QUEUE_ORDER => true | _ => false end.

Definition is_loop_till (c : PlaybackCommand) : bool :=
  match type c with PLAYBACK_LOOP_TILL_ROW => true | _ => false end.

(** The last QueueOrder command of a run, if there is one. *)
Definition last_queue_order (cmds : list PlaybackCommand) : option PlaybackCommand :=
  last (filter (fun c => is_queue_order c = true) cmds).

(** The last LoopTillRow command of a run, if there is one. *)
Definition last_loop_till (cmds : list PlaybackCommand) : option PlaybackCommand :=
  last (filter (fun c => is_loop_till c = true) cmds).

(** One jump to (order, 0) for each LoopTillRow command of a run, in the
    order of the run. *)
Definition loop_till_jumps (cmds : list PlaybackCommand) : list EngineCall :=
  concat ((fun c => if is_loop_till c then [CallSetPosition (order c) 0] else []) <$> cmds).

Definition eight_commands : list PlaybackCommand := queue_order <$> seqZ 1 8.

(** * Sessions as sequences of steps *)

(** A renderer that only moves the cursor: it leaves the tables of the
    module and the channel volumes as they are. *)
Definition tame (read : Renderer) : Prop :=
  ∀ m rate frames,
    order_pattern (read m rate frames).1 = order_pattern m
    ∧ pattern_num_rows (read m rate frames).1 = pattern_num_rows m
    ∧ num_orders (read m rate frames).1 = num_orders m
    ∧ channel_volume (read m rate frames).1 = channel_volume m.

(** The state [main] enters its loop with, for the engine [m], its channel
    count and the presence of the interactive extension. *)
Definition boot (m : Engine) (channels ok : Z) : MainState :=
  initial_main_state (initial_audio_data m channels ok).

(** The states a session passes through: turns of the control loop, on any
    key or none, and render callbacks, in any order, each taken as one
    step on the shared data. *)
Inductive reachable (s0 : MainState) : MainState → Prop :=
  | reachable_start : reachable s0 s0
  | reachable_iteration s k : reachable s0 s → reachable s0 (main_iteration k s)
  | reachable_callback s read fuel len data fill :
      reachable s0 s → tame read →
      audio_callback read fuel len (ad s) = Some (data, fill) →
      reachable s0 (set_ad data s).

(** What a key can do to the shared data. *)
Inductive key_effect (a : AudioData) : AudioData → Prop :=
  | key_nothing : key_effect a a
  | key_pause : key_effect a (set_paused (lnot (paused a)) a)
  | key_retrigger :
      key_effect a
        (reapply_mutes_if_ok
           (set_modext
              (openmpt_module_set_position_order_row
                 (modext a) (current_order (modext a)) 0) a))
  | key_enqueue t o r :
      (0 <= current_order (modext a) < num_orders (modext a) →
       0 <= o < num_orders (modext a)) →
      key_effect a (enqueue_command a t o r)
  | key_pattern_on :
      key_effect a
        (set_pending_pattern_mode_order (-1)
           (set_loop_pattern (order_pattern (modext a) (current_order (modext a)))
              (set_loop_order (current_order (modext a)) (set_pattern_mode 1 a))))
  | key_pattern_off : key_effect a (set_pattern_mode 0 a)
  | key_toggle ch :
      interactive_ok a ≠ 0 → 0 <= ch < num_channels a →
      key_effect a
        (set_modext
           (set_channel_volume (modext a) ch
              (gain_of (mute_state_at
                          (<[Z.to_nat ch := lnot (mute_state_at (mute_states a) ch)]>
                             (mute_states a)) ch)))
           (set_mute_states
              (<[Z.to_nat ch := lnot (mute_state_at (mute_states a) ch)]> (mute_states a))
              a))
  | key_all v :
      interactive_ok a ≠ 0 → v = 0 ∨ v = 1 →
      key_effect a (set_all_channels v (gain_of v) a)
  | key_pitch f : key_effect a (set_pitch_factor f a).

(** Entries of a mute vector are 0 or 1. *)
Definition boolean_vector (ms : list Z) : Prop := Forall (fun x => x = 0 ∨ x = 1) ms.

(** No volume the engine holds for a channel of the module disagrees with
    the mute vector. *)
Definition volumes_agree (ms : list Z) (n : Z) (m : Engine) : Prop :=
  ∀ ch v, 0 <= ch < n → channel_volume m !! ch = Some v →
          v = gain_of (mute_state_at ms ch).

(** While a loop is in force the looped pattern is the one the order table
    gives for the loop order. *)
Definition loop_bound (a : AudioData) : Prop :=
  pattern_mode a ≠ 0 ∨ is_looping_till a ≠ 0 →
  loop_pattern a = order_pattern (modext a) (loop_order a).

(** What holds of the shared data throughout a session started on the
    engine [m0] with [channels] channels. *)
Definition session_invariant (m0 : Engine) (channels ok : Z) (a : AudioData) : Prop :=
  queue_wf a
  ∧ has_queued_jump a = 0
  ∧ interactive_ok a = ok
  ∧ num_channels a = channels
  ∧ length (mute_states a) = Z.to_nat channels
  ∧ boolean_vector (mute_states a)
  ∧ order_pattern (modext a) = order_pattern m0
  ∧ pattern_num_rows (modext a) = pattern_num_rows m0
  ∧ num_orders (modext a) = num_orders m0
  ∧ (volumes_agree (replicate (Z.to_nat channels) 0) channels m0 →
     volumes_agree (mute_states a) channels (modext a))
  ∧ loop_bound a.

(** The mute vector after [mute_states[ch] = v] for every [ch] of a list. *)
Definition fill_mutes (v : Z) (ms : list Z) (chs : list Z) : list Z :=
  foldl (fun ms ch => <[Z.to_nat ch := v]> ms) ms chs.

(** The session invariant but for the one-shot flag, which is up between the
    drain and its consumption inside a callback. *)
Definition session_core (m0 : Engine) (channels ok : Z) (a : AudioData) : Prop :=
  queue_wf a
  ∧ interactive_ok a = ok
  ∧ num_channels a = channels
  ∧ length (mute_states a) = Z.to_nat channels
  ∧ boolean_vector (mute_states a)
  ∧ order_pattern (modext a) = order_pattern m0
  ∧ pattern_num_rows (modext a) = pattern_num_rows m0
  ∧ num_orders (modext a) = num_orders m0
  ∧ (volumes_agree (replicate (Z.to_nat channels) 0) channels m0 →
     volumes_agree (mute_states a) channels (modext a))
  ∧ loop_bound a.

(** The demo session after [s] on order 0 and then [n]. *)
Definition demo_session : MainState :=
  main_iteration (chr "n") (main_iteration (chr "s") demo_main).


(** Every command waiting in the queue names an order of the module. *)
Definition targets_in_range (a : AudioData) : Prop :=
  Forall (fun c => 0 <= order c < num_orders (modext a)) (pending_commands a).

(** The fields that only keys write. *)
Definition settings_kept (a a' : AudioData) : Prop :=
  interactive_ok a' = interactive_ok a
  ∧ num_channels a' = num_channels a
  ∧ mute_states a' = mute_states a
  ∧ paused a' = paused a
  ∧ pitch_factor a' = pitch_factor a
  ∧ samplerate a' = samplerate a.

(** The calls of the [m] and [u] loops, one per channel. *)
Definition volume_sweep (n : Z) (vol : Qc) : list EngineCall :=
  (fun ch => CallSetChannelVolume ch vol) <$> seqZ 0 n.

(** A session on a module without the interactive extension: [m], then a
    turn with no key. *)
Definition demo_plain_session : MainState :=
  main_iteration (-1) (main_iteration (chr "m") (boot demo_engine 3 0)).

(** The jump of lines 104-110 after a drain of [l] in the mode of [a]: in
    song mode, to the target of the last QueueOrder drained. *)
Definition queued_jump_of (a : AudioData) (l : list PlaybackCommand) : list EngineCall :=
  if decide (pattern_mode a = 0)
  then from_option (fun c => [CallSetPosition (order c) (row c)]) [] (last_queue_order l)
  else [].

(** The paused player of the start with three commands waiting. *)
Definition paused_with_three : AudioData := enqueue_all demo_ad three_commands.

(** modplayer_full.c in pattern mode on order 0 of the demo module, the
    engine having played on to order 1, row 3. *)
Definition full_drifted : Full.AudioData :=
  {| Full.modext := engine_at 1 3 demo_engine; Full.interactive_ok := 1;
     Full.num_channels := 3; Full.mute_states := [0; 1; 0];
     Full.pattern_mode := 1; Full.loop_pattern := 0; Full.loop_order := 0;
     Full.paused := 0; Full.do_pattern_loop := 0 |}.

(** * Properties *)

(** ** The command queue as a FIFO *)

Ltac ring_arith :=
  unfold MAX_COMMANDS in *;
  repeat match goal with
         | H : context [Z.rem _ 8] |- _ => rewrite Z.rem_mod_nonneg in H by lia
         | |- context [Z.rem _ 8] => rewrite Z.rem_mod_nonneg by lia
         end;
  Z.to_euclidean_division_equations; lia.

Lemma command_eta (c : PlaybackCommand) :
  {| type := type c; order := order c; row := row c |} = c.
Proof. by destruct c. Qed.

Lemma occupancy_bounds ad : 0 <= occupancy ad < MAX_COMMANDS.
Proof. unfold occupancy, MAX_COMMANDS. apply Z.mod_pos_bound. lia. Qed.

Lemma occupancy_wf_le ad : queue_wf ad → occupancy ad <= MAX_COMMANDS - 1.
Proof. pose proof (occupancy_bounds ad). lia. Qed.

Lemma occupancy_empty ad :
  queue_wf ad → (occupancy ad = 0 ↔ command_queue_head ad = command_queue_tail ad).
Proof. unfold queue_wf, occupancy. intros (Hh & Ht & _). split; intros; ring_arith. Qed.

Lemma queue_full_iff ad :
  queue_wf ad →
  (Z.rem (command_queue_tail ad + 1) MAX_COMMANDS = command_queue_head ad
   ↔ occupancy ad = MAX_COMMANDS - 1).
Proof. unfold queue_wf, occupancy. intros (Hh & Ht & _). split; intros; ring_arith. Qed.

Lemma enqueue_wf ad c : queue_wf ad → queue_wf (enqueue ad c).
Proof.
  unfold enqueue, enqueue_command, queue_wf. intros (Hh & Ht & Hl).
  case_decide; simpl; [|done].
  rewrite length_insert. repeat split; try done; ring_arith.
Qed.

Lemma enqueue_head ad c : command_queue_head (enqueue ad c) = command_queue_head ad.
Proof. unfold enqueue, enqueue_command. by case_decide. Qed.

Lemma enqueue_full ad c :
  queue_wf ad → occupancy ad = MAX_COMMANDS - 1 → enqueue ad c = ad.
Proof.
  intros Hwf Hfull. apply queue_full_iff in Hfull; [|done].
  unfold enqueue, enqueue_command. by case_decide.
Qed.

Lemma enqueue_occupancy ad c :
  queue_wf ad → occupancy ad < MAX_COMMANDS - 1 →
  occupancy (enqueue ad c) = occupancy ad + 1.
Proof.
  intros Hwf Hocc.
  assert (Z.rem (command_queue_tail ad + 1) MAX_COMMANDS ≠ command_queue_head ad) as Hne.
  { rewrite queue_full_iff by done. lia. }
  destruct Hwf as (Hh & Ht & _).
  unfold enqueue, enqueue_command. case_decide; [|done]. 
  unfold occupancy in *. simpl. ring_arith.
Qed.

Lemma enqueue_pending ad c :
  queue_wf ad → occupancy ad < MAX_COMMANDS - 1 →
  pending_commands (enqueue ad c) = pending_commands ad ++ [c].
Proof.
  intros Hwf Hocc. pose proof (occupancy_bounds ad) as Hb.
  unfold pending_commands. rewrite enqueue_occupancy, enqueue_head by done.
  rewrite seqZ_app by lia. rewrite fmap_app. simpl.
  assert (Z.rem (command_queue_tail ad + 1) MAX_COMMANDS ≠ command_queue_head ad) as Hne.
  { rewrite queue_full_iff by done. lia. }
  destruct Hwf as (Hh & Ht & Hl).
  unfold enqueue, enqueue_command. case_decide; [|done]. simpl. f_equal.
  - apply list_fmap_ext. intros i x Hx%lookup_seqZ.
    unfold command_at. rewrite list_lookup_insert_ne; [done|].
    unfold occupancy in *. intros Heq%Z2Nat.inj; ring_arith.
  - unfold command_at. 
    replace ((command_queue_head ad + (Z.of_nat 0 + (0 + occupancy ad))) `mod` MAX_COMMANDS)
      with (command_queue_tail ad) by (unfold occupancy; ring_arith).
    rewrite list_lookup_insert_eq by (rewrite Hl; unfold MAX_COMMANDS in *; lia).
    simpl. by rewrite command_eta.
Qed.

Lemma enqueue_all_wf ad cmds : queue_wf ad → queue_wf (enqueue_all ad cmds).
Proof.
  revert ad. induction cmds as [|c cmds IH]; intros ad Hwf; [done|].
  simpl. by apply IH, enqueue_wf.
Qed.

Lemma pending_length ad : length (pending_commands ad) = Z.to_nat (occupancy ad).
Proof. unfold pending_commands. by rewrite length_fmap, length_seqZ. Qed.

Lemma pending_empty ad :
  queue_wf ad → command_queue_head ad = command_queue_tail ad → pending_commands ad = [].
Proof.
  intros Hwf Heq. apply occupancy_empty in Heq; [|done].
  unfold pending_commands. by rewrite Heq.
Qed.

Lemma enqueue_all_pending ad cmds :
  queue_wf ad →
  pending_commands (enqueue_all ad cmds)
  = take (Z.to_nat (MAX_COMMANDS - 1)) (pending_commands ad ++ cmds).
Proof.
  revert ad. induction cmds as [|c cmds IH]; intros ad Hwf.
  - simpl. rewrite app_nil_r, take_ge; [done|].
    rewrite pending_length. pose proof (occupancy_wf_le ad Hwf). lia.
  - simpl. pose proof (occupancy_wf_le ad Hwf) as Hle.
    destruct (decide (occupancy ad = MAX_COMMANDS - 1)) as [Hfull|Hroom].
    + rewrite enqueue_full by done. rewrite IH by done.
      rewrite !take_app_le by (rewrite pending_length; lia). done.
    + rewrite IH by (by apply enqueue_wf).
      rewrite enqueue_pending by (done || lia). by rewrite <-app_assoc.
Qed.

(** *** Draining *)

Lemma set_head_id ad : set_command_queue_head (command_queue_head ad) ad = ad.
Proof. by destruct ad. Qed.

Lemma apply_command_set_head h ad c :
  apply_command (set_command_queue_head h ad) c
  = set_command_queue_head h (apply_command ad c).
Proof.
  unfold apply_command, reapply_mutes_if_ok, reapply_mutes.
  destruct (type c); simpl; repeat case_decide; done.
Qed.

Lemma foldl_apply_set_head h cmds ad :
  foldl apply_command (set_command_queue_head h ad) cmds
  = set_command_queue_head h (foldl apply_command ad cmds).
Proof.
  revert ad. induction cmds as [|c cmds IH]; intros ad; [done|].
  simpl. by rewrite apply_command_set_head, IH.
Qed.

Lemma apply_command_queue ad c :
  command_queue (apply_command ad c) = command_queue ad
  ∧ command_queue_head (apply_command ad c) = command_queue_head ad
  ∧ command_queue_tail (apply_command ad c) = command_queue_tail ad.
Proof.
  unfold apply_command, reapply_mutes_if_ok, reapply_mutes.
  destruct (type c); simpl; repeat case_decide; done.
Qed.

Lemma foldl_apply_tail cmds ad :
  command_queue_tail (foldl apply_command ad cmds) = command_queue_tail ad.
Proof.
  revert ad. induction cmds as [|c cmds IH]; intros ad; [done|].
  simpl. rewrite IH. apply apply_command_queue.
Qed.

Lemma process_one_wf ad : queue_wf ad → queue_wf (process_one ad).
Proof.
  unfold queue_wf, process_one. simpl.
  destruct (apply_command_queue ad (command_at (command_queue ad) (command_queue_head ad)))
    as (-> & -> & ->).
  intros (Hh & Ht & Hl). repeat split; try done; ring_arith.
Qed.

Lemma process_one_occupancy ad :
  queue_wf ad → command_queue_head ad ≠ command_queue_tail ad →
  occupancy (process_one ad) = occupancy ad - 1.
Proof.
  unfold queue_wf, occupancy, process_one. simpl.
  destruct (apply_command_queue ad (command_at (command_queue ad) (command_queue_head ad)))
    as (_ & -> & ->).
  intros (Hh & Ht & Hl) Hne. ring_arith.
Qed.

Lemma pending_uncons ad :
  queue_wf ad → command_queue_head ad ≠ command_queue_tail ad →
  pending_commands ad
  = command_at (command_queue ad) (command_queue_head ad)
      :: pending_commands (process_one ad).
Proof.
  intros Hwf Hne. pose proof (occupancy_bounds ad) as Hb.
  assert (occupancy ad ≠ 0) as Hpos by (by rewrite occupancy_empty).
  unfold pending_commands at 1.
  rewrite seqZ_cons by lia. rewrite fmap_cons.
  destruct Hwf as (Hh & Ht & Hl). f_equal.
  - f_equal. ring_arith.
  - unfold pending_commands.
    rewrite process_one_occupancy by done.
    unfold process_one. simpl.
    destruct (apply_command_queue ad (command_at (command_queue ad) (command_queue_head ad)))
      as (-> & -> & _).
    replace (Z.succ 0) with (1 + 0) by lia. rewrite <-fmap_add_seqZ.
    rewrite <-list_fmap_compose. rewrite Z.sub_1_r.
    apply list_fmap_ext. intros i x Hx%lookup_seqZ.
    simpl. f_equal. ring_arith.
Qed.

(** A drain with enough fuel ends, and ends in [drained]. *)
Lemma process_commands_drained fuel ad :
  queue_wf ad → (Z.to_nat (occupancy ad) <= fuel)%nat →
  process_commands fuel ad = Some (drained ad).
Proof.
  revert ad. induction fuel as [|fuel IH]; intros ad Hwf Hfuel.
  - pose proof (occupancy_bounds ad) as Hb.
    assert (occupancy ad = 0) as Hocc by lia.
    pose proof Hocc as Heq. rewrite occupancy_empty in Heq by done.
    simpl. case_decide; [|done].
    unfold drained. rewrite pending_empty by done. simpl.
    by rewrite <-Heq, set_head_id.
  - simpl. case_decide as Heq.
    + unfold drained. rewrite pending_empty by done. simpl.
      by rewrite <-Heq, set_head_id.
    + rewrite IH.
      * f_equal. unfold drained at 2. rewrite (pending_uncons ad) by done.
        simpl. unfold drained.
        unfold process_one at 2. rewrite foldl_apply_set_head.
        unfold process_one. simpl.
        destruct (apply_command_queue ad
                    (command_at (command_queue ad) (command_queue_head ad)))
          as (_ & _ & ->).
        by destruct (foldl apply_command _ _).
      * by apply process_one_wf.
      * rewrite process_one_occupancy by done. lia.
Qed.

Lemma demo_ad_wf : queue_wf demo_ad.
Proof. unfold queue_wf, MAX_COMMANDS. simpl. repeat split; lia. Qed.

(** ** C1: overflow of the command queue *)

(** C1, as stated, fails: after nine enqueues on an empty queue the queue
    does not hold the first eight commands; it holds the first seven. *)
Lemma nine_enqueues_hold_seven :
  pending_commands (enqueue_all demo_ad nine_commands) = take 7 nine_commands
  ∧ pending_commands (enqueue_all demo_ad nine_commands) ≠ take 8 nine_commands.
Proof. split; [by vm_compute|]. vm_compute. discriminate. Qed.

(** C1, amended: the ring of [MAX_COMMANDS] = 8 cells never holds more than
    seven commands; [enqueue_command] on a queue that holds seven leaves the
    whole state as it is; below seven it appends the command; and a run of
    enqueues on an empty queue leaves its first seven commands, in order,
    with every later one dropped. *)
Theorem enqueue_command_full_is_noop ad :
  queue_wf ad →
  occupancy ad <= MAX_COMMANDS - 1
  ∧ (∀ t o r, occupancy ad = MAX_COMMANDS - 1 → enqueue_command ad t o r = ad)
  ∧ (∀ t o r, occupancy ad < MAX_COMMANDS - 1 →
       pending_commands (enqueue_command ad t o r)
       = pending_commands ad ++ [{| type := t; order := o; row := r |}])
  ∧ (∀ cmds, command_queue_head ad = command_queue_tail ad →
       pending_commands (enqueue_all ad cmds) = take 7 cmds).
Proof.
  intros Hwf. split; [by apply occupancy_wf_le|]. split; [|split].
  - intros t o r Hfull.
    apply (enqueue_full ad {| type := t; order := o; row := r |}); done.
  - intros t o r Hroom.
    apply (enqueue_pending ad {| type := t; order := o; row := r |}); done.
  - intros cmds Hempty. rewrite enqueue_all_pending by done.
    by rewrite pending_empty.
Qed.

Lemma enqueue_command_full_is_noop_witness :
  queue_wf demo_ad
  ∧ pending_commands (enqueue_all demo_ad nine_commands) = take 7 nine_commands.
Proof.
  split; [exact demo_ad_wf|].
  apply (enqueue_command_full_is_noop demo_ad demo_ad_wf). reflexivity.
Defined.

(** ** What [reapply_mutes] does to the engine *)

Lemma position_calls_app l1 l2 :
  position_calls (l1 ++ l2) = position_calls l1 ++ position_calls l2.
Proof. unfold position_calls. apply filter_app. Qed.

Lemma push_volumes_frame ms chs m :
  cursor (push_volumes ms m chs) = cursor m
  ∧ position_calls (call_log (push_volumes ms m chs)) = position_calls (call_log m)
  ∧ order_pattern (push_volumes ms m chs) = order_pattern m
  ∧ pattern_num_rows (push_volumes ms m chs) = pattern_num_rows m
  ∧ num_orders (push_volumes ms m chs) = num_orders m.
Proof.
  revert m. induction chs as [|ch chs IH]; intros m; [done|].
  simpl. destruct (IH (set_channel_volume m ch (gain_of (mute_state_at ms ch))))
    as (-> & -> & -> & -> & ->).
  simpl. rewrite position_calls_app. simpl. by rewrite app_nil_r.
Qed.

Lemma push_volumes_lookup ms chs m ch :
  channel_volume (push_volumes ms m chs) !! ch
  = if decide (ch ∈ chs) then Some (gain_of (mute_state_at ms ch))
    else channel_volume m !! ch.
Proof.
  revert m. induction chs as [|c chs IH]; intros m.
  - done.
  - change (push_volumes ms m (c :: chs))
      with (push_volumes ms (set_channel_volume m c (gain_of (mute_state_at ms c))) chs).
    rewrite IH. cbn [channel_volume set_channel_volume].
    destruct (decide (ch ∈ chs)) as [Hin|Hnin].
    + rewrite decide_True; [done|]. by apply elem_of_cons; right.
    + destruct (decide (c = ch)) as [->|Hne].
      * rewrite lookup_insert_eq. rewrite decide_True; [done|]. by apply elem_of_cons; left.
      * rewrite lookup_insert_ne by done. rewrite decide_False; [done|].
        intros Hin. apply elem_of_cons in Hin as [?|?]; congruence.
Qed.

Lemma reapply_mutes_unfold a :
  reapply_mutes a
  = if decide (interactive_ok a = 0) then a
    else set_modext (push_volumes (mute_states a) (modext a) (seqZ 0 (num_channels a))) a.
Proof. done. Qed.

Lemma reapply_mutes_if_ok_eq a : reapply_mutes_if_ok a = reapply_mutes a.
Proof.
  unfold reapply_mutes_if_ok, reapply_mutes.
  destruct (decide (interactive_ok a ≠ 0)) as [Hok|Hno]; [done|].
  rewrite decide_True; [done|]. by apply dec_stable.
Qed.

(** [reapply_mutes] only touches the engine. *)
Lemma reapply_frame a : reapply_mutes_if_ok a = set_modext (reapplied a) a.
Proof.
  unfold reapplied. rewrite reapply_mutes_if_ok_eq, reapply_mutes_unfold.
  case_decide; by destruct a.
Qed.

Lemma reapplied_frame a :
  cursor (reapplied a) = cursor (modext a)
  ∧ position_calls (call_log (reapplied a)) = position_calls (call_log (modext a))
  ∧ order_pattern (reapplied a) = order_pattern (modext a)
  ∧ pattern_num_rows (reapplied a) = pattern_num_rows (modext a)
  ∧ num_orders (reapplied a) = num_orders (modext a).
Proof.
  unfold reapplied. rewrite reapply_mutes_if_ok_eq, reapply_mutes_unfold.
  case_decide; [done|]. simpl. apply push_volumes_frame.
Qed.

Lemma reapplied_volume a ch :
  interactive_ok a ≠ 0 → 0 <= ch < num_channels a →
  channel_volume (reapplied a) !! ch = Some (gain_of (mute_state_at (mute_states a) ch)).
Proof.
  intros Hok Hch. unfold reapplied.
  rewrite reapply_mutes_if_ok_eq, reapply_mutes_unfold.
  rewrite decide_False by done. simpl.
  rewrite push_volumes_lookup, decide_True; [done|].
  apply elem_of_seqZ. lia.
Qed.

(** ** C9: [reapply_mutes] twice is [reapply_mutes] once *)

(** C9: for every state, the per-channel volumes of the engine after two
    calls of [reapply_mutes] in a row are those after one call; and, the
    interactive extension being there, one call leaves every channel of the
    mute vector at 0.0 when it is muted and at 1.0 when it is not. *)
Theorem reapply_mutes_idempotent ad :
  channel_volume (modext (reapply_mutes (reapply_mutes ad)))
  = channel_volume (modext (reapply_mutes ad))
  ∧ (interactive_ok ad ≠ 0 →
     ∀ ch, 0 <= ch < num_channels ad →
       channel_volume (modext (reapply_mutes ad)) !! ch
       = Some (if decide (mute_state_at (mute_states ad) ch ≠ 0) then 0%Qc else 1%Qc)).
Proof.
  split.
  - rewrite !reapply_mutes_unfold.
    destruct (decide (interactive_ok ad = 0)) as [Hno|Hok]; simpl.
    + by rewrite decide_True.
    + rewrite decide_False by done. simpl.
      apply map_eq. intros ch. rewrite !push_volumes_lookup.
      by case_decide.
  - intros Hok ch Hch. rewrite <-reapply_mutes_if_ok_eq.
    by apply (reapplied_volume ad ch).
Qed.

Lemma reapply_mutes_idempotent_witness :
  channel_volume (modext (reapply_mutes demo_muted)) !! 2 = Some 0%Qc.
Proof.
  apply (reapply_mutes_idempotent demo_muted); [done|]. simpl. lia.
Defined.

(** ** Key codes *)

Ltac chr_consts :=
  repeat match goal with
         | |- context [chr ?c] =>
             let v := eval vm_compute in (chr c) in change (chr c) with v
         | H : context [chr ?c] |- _ =>
             let v := eval vm_compute in (chr c) in change (chr c) with v in H
         end;
  unfold KEY_ESC in *.

(** Rewrites to [false] every test [k = c] that the context refutes. *)
Ltac refute_keys k :=
  repeat match goal with
         | |- context [bool_decide (k = ?c)] =>
             rewrite (bool_decide_eq_false_2 (k = c)) by lia
         end;
  cbn [orb andb].

Lemma handle_key_digit k s :
  chr "1" <= k <= chr "9" →
  handle_key k s
  = if decide (interactive_ok (ad s) ≠ 0) then toggle_channel (k - chr "1") s else s.
Proof.
  intros Hk. unfold handle_key. chr_consts. refute_keys k.
  rewrite (bool_decide_eq_true_2 (49 <= k)), (bool_decide_eq_true_2 (k <= 57)) by lia.
  rewrite andb_true_r.
  destruct (decide (interactive_ok (ad s) ≠ 0)) as [Hok|Hno].
  - by rewrite bool_decide_eq_true_2.
  - by rewrite bool_decide_eq_false_2.
Qed.

Lemma interactive_handle_key_digit k s :
  chr "1" <= k <= chr "9" →
  Interactive.handle_key k s
  = if decide (Interactive.interactive_ok (Interactive.ad s) ≠ 0)
    then Interactive.toggle_channel (k - chr "1") s
    else Interactive.printf (Interactive.DebugKeyIgnored k) s.
Proof.
  intros Hk. unfold Interactive.handle_key. chr_consts. refute_keys k.
  rewrite (bool_decide_eq_true_2 (49 <= k)), (bool_decide_eq_true_2 (k <= 57)) by lia.
  rewrite andb_true_r.
  destruct (decide (Interactive.interactive_ok (Interactive.ad s) ≠ 0)) as [Hok|Hno].
  - by rewrite bool_decide_eq_true_2.
  - by rewrite bool_decide_eq_false_2.
Qed.

Lemma mute_state_at_insert ms ch v :
  0 <= ch → (Z.to_nat ch < length ms)%nat →
  mute_state_at (<[Z.to_nat ch := v]> ms) ch = v.
Proof.
  intros Hch Hlen. unfold mute_state_at. by rewrite list_lookup_insert_eq.
Qed.

Lemma gain_of_lnot x : gain_of (lnot x) = if decide (x = 0) then 0%Qc else 1%Qc.
Proof. unfold gain_of, lnot. by repeat case_decide. Qed.

(** ** C8: toggling a channel *)

(** C8, as stated, fails on the diagnostic: in modplayer_regroover.c key
    [9] on a module of three channels prints nothing. *)
Lemma out_of_range_toggle_is_silent :
  num_channels (ad demo_main) <= chr "9" - chr "1"
  ∧ stdout (handle_key (chr "9") demo_main) = stdout demo_main.
Proof. split; [by vm_compute|]. by vm_compute. Qed.

(** C8, amended: for a digit key, whose channel index is the key minus
    [1]: when the index is at or above the channel count,
    modplayer_regroover.c leaves its whole state as it is (mute vector and
    engine untouched, nothing printed) and interactive.c leaves its shared
    data as it is and prints a diagnostic; when the index is below the
    channel count and the interactive extension is there, both programs
    flip the stored mute state and push to the engine, for that channel,
    0.0 if the channel is now muted and 1.0 if it is not. *)
Theorem toggle_channel_out_of_range k :
  chr "1" <= k <= chr "9" →
  let ch := k - chr "1" in
  (∀ s, num_channels (ad s) <= ch → handle_key k s = s)
  ∧ (∀ s, Interactive.num_channels (Interactive.ad s) <= ch →
       Interactive.ad (Interactive.handle_key k s) = Interactive.ad s
       ∧ Interactive.stdout (Interactive.handle_key k s)
         = Interactive.stdout s
           ++ [if decide (Interactive.interactive_ok (Interactive.ad s) ≠ 0)
               then Interactive.DebugChannelOutOfRange
                      (ch + 1) (Interactive.num_channels (Interactive.ad s))
               else Interactive.DebugKeyIgnored k])
  ∧ (∀ s, ch < num_channels (ad s) → interactive_ok (ad s) ≠ 0 →
       (Z.to_nat ch < length (mute_states (ad s)))%nat →
       let old := mute_state_at (mute_states (ad s)) ch in
       mute_states (ad (handle_key k s)) = <[Z.to_nat ch := lnot old]> (mute_states (ad s))
       ∧ modext (ad (handle_key k s))
         = set_channel_volume (modext (ad s)) ch (if decide (old = 0) then 0%Qc else 1%Qc))
  ∧ (∀ s, ch < Interactive.num_channels (Interactive.ad s) →
       Interactive.interactive_ok (Interactive.ad s) ≠ 0 →
       (Z.to_nat ch < length (Interactive.mute_states (Interactive.ad s)))%nat →
       let old := mute_state_at (Interactive.mute_states (Interactive.ad s)) ch in
       Interactive.mute_states (Interactive.ad (Interactive.handle_key k s))
       = <[Z.to_nat ch := lnot old]> (Interactive.mute_states (Interactive.ad s))
       ∧ Interactive.modext (Interactive.ad (Interactive.handle_key k s))
         = set_channel_volume (Interactive.modext (Interactive.ad s)) ch
             (if decide (old = 0) then 0%Qc else 1%Qc)).
Proof.
  intros Hk ch.
  assert (0 <= ch) as Hch by (unfold ch; lia).
  split; [|split; [|split]].
  - intros s Hout. rewrite handle_key_digit by done. fold ch.
    case_decide; [|done]. unfold toggle_channel. by rewrite decide_False by lia.
  - intros s Hout. rewrite interactive_handle_key_digit by done. fold ch.
    case_decide; [|done]. unfold Interactive.toggle_channel.
    by rewrite decide_False by lia.
  - intros s Hin Hok Hlen old. rewrite handle_key_digit by done. fold ch.
    rewrite decide_True by done. unfold toggle_channel.
    rewrite decide_True by done. simpl.
    rewrite mute_state_at_insert by done. by rewrite gain_of_lnot.
  - intros s Hin Hok Hlen old. rewrite interactive_handle_key_digit by done. fold ch.
    rewrite decide_True by done. unfold Interactive.toggle_channel.
    rewrite decide_True by done. simpl.
    rewrite mute_state_at_insert by done. by rewrite gain_of_lnot.
Qed.

Lemma toggle_channel_out_of_range_witness :
  handle_key (chr "9") demo_main = demo_main
  ∧ mute_states (ad (handle_key (chr "2") demo_main)) = [0; 1; 0].
Proof.
  assert (chr "1" <= chr "9" <= chr "9") as H9 by (vm_compute; split; discriminate).
  assert (chr "1" <= chr "2" <= chr "9") as H2 by (vm_compute; split; discriminate).
  split.
  - apply (toggle_channel_out_of_range (chr "9") H9). vm_compute. discriminate.
  - pose proof (toggle_channel_out_of_range (chr "2") H2) as (_ & _ & Hin & _).
    destruct (Hin demo_main) as [Hflip _];
      [by vm_compute | by vm_compute | vm_compute; lia | exact Hflip].
Defined.

(** ** Jumps and what [reapply_mutes] leaves alone *)

Lemma reapplied_current_order a : current_order (reapplied a) = current_order (modext a).
Proof. by destruct (reapplied_frame a) as ([= -> _] & _). Qed.

Lemma reapplied_current_row a : current_row (reapplied a) = current_row (modext a).
Proof. by destruct (reapplied_frame a) as ([= _ ->] & _). Qed.

Lemma reapplied_position_calls a :
  position_calls (call_log (reapplied a)) = position_calls (call_log (modext a)).
Proof. apply reapplied_frame. Qed.

Lemma reapplied_order_pattern a : order_pattern (reapplied a) = order_pattern (modext a).
Proof. apply reapplied_frame. Qed.

Lemma reapplied_pattern_num_rows a :
  pattern_num_rows (reapplied a) = pattern_num_rows (modext a).
Proof. apply reapplied_frame. Qed.

Lemma reapplied_num_orders a : num_orders (reapplied a) = num_orders (modext a).
Proof. apply reapplied_frame. Qed.

Lemma position_calls_jump l o r :
  position_calls (l ++ [CallSetPosition o r]) = position_calls l ++ [CallSetPosition o r].
Proof. by rewrite position_calls_app. Qed.

Lemma position_calls_volume l ch v :
  position_calls (l ++ [CallSetChannelVolume ch v]) = position_calls l.
Proof. rewrite position_calls_app. simpl. apply app_nil_r. Qed.

Lemma mutes_applied_reapplied x y :
  interactive_ok x ≠ 0 → num_channels y = num_channels x →
  mute_states y = mute_states x → modext y = reapplied x → mutes_applied y.
Proof.
  intros Hok Hn Hms Hm ch Hch. rewrite Hm, Hms. apply reapplied_volume; [done|].
  by rewrite <-Hn.
Qed.

(** Pushes [reapply_mutes] into the engine field and reads the fields that
    it and the assignments leave alone. *)
Ltac engine_simpl :=
  repeat (simpl;
          rewrite ?reapply_frame, ?reapplied_current_order, ?reapplied_current_row,
            ?reapplied_position_calls, ?reapplied_order_pattern,
            ?reapplied_pattern_num_rows, ?reapplied_num_orders,
            ?position_calls_jump, ?position_calls_volume).

Ltac unfold_getters :=
  unfold openmpt_module_get_pattern_num_rows, openmpt_module_get_current_row,
    openmpt_module_get_current_order, openmpt_module_get_order_pattern,
    openmpt_module_get_current_pattern, openmpt_module_get_num_orders in *.

Ltac reapplied_mutes :=
  eapply mutes_applied_reapplied; [| | |simpl; reflexivity]; simpl; done.

(** ** The pattern-loop branch, case by case *)

Lemma wraps_true s :
  wraps s = true
  ↔ prev_row s = pattern_num_rows (modext (ad s)) (loop_pattern (ad s)) - 1
    ∧ current_row (modext (ad s)) = 0.
Proof.
  unfold wraps. rewrite andb_true_iff, !bool_decide_eq_true. done.
Qed.

Lemma adopts_true s :
  adopts s = true
  ↔ (prev_row s = pattern_num_rows (modext (ad s)) (loop_pattern (ad s)) - 1
     ∧ current_row (modext (ad s)) = 0)
    ∧ pending_pattern_mode_order (ad s) ≠ -1
    ∧ pending_pattern_mode_order (ad s) ≠ loop_order (ad s).
Proof.
  unfold adopts. rewrite !andb_true_iff, wraps_true, !bool_decide_eq_true. done.
Qed.

Lemma pattern_loop_block_spec s :
  let a := ad s in
  let s' := pattern_loop_block s in
  let co := current_order (modext a) in
  let jump := CallSetPosition (loop_target s) 0 in
  loop_order (ad s') = loop_target s
  ∧ loop_pattern (ad s')
    = (if adopts s then order_pattern (modext a) (pending_pattern_mode_order a)
       else loop_pattern a)
  ∧ pending_pattern_mode_order (ad s')
    = (if adopts s then -1 else pending_pattern_mode_order a)
  ∧ prev_row s' = (if decide (co ≠ loop_target s) then -1 else current_row (modext a))
  ∧ jumps_issued (modext a) (modext (ad s'))
      ((if wraps s then [jump] else [])
       ++ (if decide (co ≠ loop_target s) then [jump] else []))
  ∧ current_order (modext (ad s')) = loop_target s
  ∧ (wraps s = true ∨ co ≠ loop_target s →
     current_row (modext (ad s')) = 0
     ∧ (interactive_ok a ≠ 0 → mutes_applied (ad s')))
  ∧ (wraps s = false → co = loop_target s → modext (ad s') = modext a).
Proof.
  intros a s' co jump. subst a s' co jump.
  unfold pattern_loop_block, pattern_wrap, pattern_snap_back, loop_target, adopts,
    wraps, jumps_issued.
  unfold_getters.
  destruct (bool_decide (prev_row s = _) && _) eqn:Hw; cbn [andb].
  - destruct (bool_decide (_ ≠ -1) && _) eqn:Ha.
    + engine_simpl.
      destruct (decide (current_order (modext (ad s)) ≠ _)) as [Hd|Hd]; engine_simpl.
      * split_and!; try done; [by rewrite <-app_assoc|].
        intros _. split; [done|]. intros Hok. reapplied_mutes.
      * split_and!; try done.
        intros _. split; [done|]. intros Hok. reapplied_mutes.
    + engine_simpl.
      destruct (decide (current_order (modext (ad s)) ≠ _)) as [Hd|Hd]; engine_simpl.
      * split_and!; try done; [by rewrite <-app_assoc|].
        intros _. split; [done|]. intros Hok. reapplied_mutes.
      * split_and!; try done.
        intros _. split; [done|]. intros Hok. reapplied_mutes.
  - engine_simpl.
    destruct (decide (current_order (modext (ad s)) ≠ _)) as [Hd|Hd]; engine_simpl.
    + split_and!; try done.
      intros _. split; [done|]. intros Hok. reapplied_mutes.
    + split_and!; try done.
      * by rewrite app_nil_r.
      * by apply dec_stable.
      * intros [?|?]; done.
Qed.

Lemma transport_pattern_loop s :
  pattern_mode (ad s) ≠ 0 → is_looping_till (ad s) = 0 →
  transport s = pattern_loop_block s.
Proof.
  intros Hp Hl. unfold transport.
  by rewrite (bool_decide_eq_true_2 _ Hp), (bool_decide_eq_true_2 _ Hl).
Qed.

Lemma transport_loop_till_row s :
  is_looping_till (ad s) ≠ 0 → transport s = loop_till_row_block s.
Proof.
  intros Hl. unfold transport.
  rewrite (bool_decide_eq_false_2 (is_looping_till (ad s) = 0)) by done.
  rewrite andb_false_r. by rewrite decide_True.
Qed.

(** Membership in the short call lists of the statements below. *)
Ltac only_jumps Hc :=
  repeat match type of Hc with
         | _ ∈ _ ++ _ => apply elem_of_app in Hc as [Hc|Hc]
         | _ ∈ [] => by apply elem_of_nil in Hc
         | _ ∈ _ :: _ => apply elem_of_cons in Hc as [Hc|Hc]
         end;
  try done.

(** ** C3: a queued order in pattern mode waits for the wrap *)

Lemma foldl_queue_orders a cmds :
  pattern_mode a ≠ 0 →
  Forall (fun c => type c = PLAYBACK_QUEUE_ORDER) cmds →
  foldl apply_command a cmds
  = match last cmds with
    | Some c => set_pending_pattern_mode_order (order c) a
    | None => a
    end.
Proof.
  intros Hp. induction cmds as [|c cmds IH] using rev_ind; intros Hall; [done|].
  apply Forall_app in Hall as [Hall Hc]. rewrite Forall_singleton in Hc.
  rewrite foldl_app, last_snoc. simpl. rewrite IH by done.
  unfold apply_command. rewrite Hc.
  destruct (last cmds); simpl; by rewrite decide_True.
Qed.

(** C3: in pattern mode a QueueOrder command only records the pending
    order: applying it changes no other field and leaves the engine alone,
    and a render callback that drains nothing but such commands issues no
    call.  On the control loop, a tick of pattern mode changes the loop
    order only at a wrap (previous row the last row of the looped pattern,
    current row 0) whose pending order is set and differs from the loop
    order: there the loop order becomes the pending order, the looped
    pattern is the one the order table gives for it, the position is set to
    (pending order, 0), mutes are reapplied and the pending order is
    cleared.  On any other tick loop order, looped pattern and pending
    order stay, and every jump issued goes to (loop order, 0); at a wrap
    one is issued. *)
Theorem queue_order_waits_for_wrap :
  (∀ a cmd, type cmd = PLAYBACK_QUEUE_ORDER → pattern_mode a ≠ 0 →
     apply_command a cmd = set_pending_pattern_mode_order (order cmd) a)
  ∧ (∀ read fuel len data,
       queue_wf data → pattern_mode data ≠ 0 → has_queued_jump data = 0 →
       Forall (fun c => type c = PLAYBACK_QUEUE_ORDER) (pending_commands data) →
       (Z.to_nat (occupancy data) <= fuel)%nat →
       ∃ data',
         audio_callback read fuel len data = Some (render_stream read len data')
         ∧ modext data' = modext data
         ∧ loop_order data' = loop_order data
         ∧ pending_pattern_mode_order data'
           = default (pending_pattern_mode_order data)
               (order <$> last (pending_commands data)))
  ∧ (∀ s, pattern_mode (ad s) ≠ 0 → is_looping_till (ad s) = 0 →
       let a := ad s in
       let s' := transport s in
       let pend := pending_pattern_mode_order a in
       let wrap := prev_row s = pattern_num_rows (modext a) (loop_pattern a) - 1
                   ∧ current_row (modext a) = 0 in
       let switch := wrap ∧ pend ≠ -1 ∧ pend ≠ loop_order a in
       (switch →
          loop_order (ad s') = pend
          ∧ loop_pattern (ad s') = order_pattern (modext a) pend
          ∧ pending_pattern_mode_order (ad s') = -1
          ∧ cursor (modext (ad s')) = (pend, 0)
          ∧ (interactive_ok a ≠ 0 → mutes_applied (ad s'))
          ∧ ∃ calls, jumps_issued (modext a) (modext (ad s')) calls
                     ∧ calls ≠ []
                     ∧ ∀ c, c ∈ calls → c = CallSetPosition pend 0)
       ∧ (¬ switch →
          loop_order (ad s') = loop_order a
          ∧ loop_pattern (ad s') = loop_pattern a
          ∧ pending_pattern_mode_order (ad s') = pend
          ∧ ∃ calls, jumps_issued (modext a) (modext (ad s')) calls
                     ∧ (∀ c, c ∈ calls → c = CallSetPosition (loop_order a) 0)
                     ∧ (wrap →
                        calls ≠ []
                        ∧ cursor (modext (ad s')) = (loop_order a, 0)
                        ∧ (interactive_ok a ≠ 0 → mutes_applied (ad s'))))).
Proof.
  split_and!.
  - intros a cmd Ht Hp. unfold apply_command. rewrite Ht. by rewrite decide_True.
  - intros read fuel len data Hwf Hp Hq Hall Hfuel.
    unfold audio_callback. rewrite process_commands_drained by done.
    eexists. split; [reflexivity|].
    unfold drained. rewrite foldl_queue_orders by done.
    unfold consume_queued_jump.
    destruct (last (pending_commands data)) as [c|]; simpl;
      by rewrite decide_False by lia.
  - intros s Hp Hl a s' pend wrap switch. subst s'.
    rewrite transport_pattern_loop by done.
    destruct (pattern_loop_block_spec s)
      as (Hlo & Hlp & Hpe & _ & Hj & Hco & Hjump & _).
    fold a in Hlo, Hlp, Hpe, Hj, Hco, Hjump.
    unfold loop_target in *. split.
    + intros Hs. pose proof Hs as (Hw & _).
      apply adopts_true in Hs. apply wraps_true in Hw.
      rewrite Hs in *. rewrite Hw in *.
      destruct (Hjump (or_introl eq_refl)) as (Hrow & Hm).
      split_and!; try done.
      * unfold cursor. by rewrite Hco, Hrow.
      * eexists. split; [exact Hj|]. split; [done|].
        intros c Hc. case_decide; only_jumps Hc.
    + intros Hns. destruct (adopts s) eqn:Had.
      { by apply adopts_true in Had. }
      split_and!; try done.
      eexists. split; [exact Hj|]. split.
      * intros c Hc. destruct (wraps s); case_decide; only_jumps Hc.
      * intros Hw. apply wraps_true in Hw. rewrite Hw in *.
        destruct (Hjump (or_introl eq_refl)) as (Hrow & Hm).
        split_and!; try done. unfold cursor. by rewrite Hco, Hrow.
Qed.

(** Four orders, three channels, pattern mode entered on order 0, [n]
    pressed: order 1 is pending.  In the middle of the pattern nothing
    moves; at the wrap the loop goes to order 1. *)
Lemma queue_order_waits_for_wrap_witness :
  (loop_order (ad (transport (pattern_state 0 3 2 1))) = 0
   ∧ pending_pattern_mode_order (ad (transport (pattern_state 0 3 2 1))) = 1)
  ∧ (loop_order (ad (transport (pattern_state 1 0 7 1))) = 1
     ∧ pending_pattern_mode_order (ad (transport (pattern_state 1 0 7 1))) = -1
     ∧ cursor (modext (ad (transport (pattern_state 1 0 7 1)))) = (1, 0)).
Proof.
  destruct queue_order_waits_for_wrap as (_ & _ & Htick). split.
  - destruct (Htick (pattern_state 0 3 2 1)) as (_ & Hstay); [done|done|].
    destruct Hstay as (Hlo & _ & Hpe & _); [|by split].
    vm_compute. intros ((Hprev & _) & _). discriminate Hprev.
  - destruct (Htick (pattern_state 1 0 7 1)) as (Hswitch & _); [done|done|].
    destruct Hswitch as (Hlo & _ & Hpe & Hcur & _); [|by split_and!].
    vm_compute. split_and!; (reflexivity || discriminate).
Defined.

(** ** C4: drift out of the loop order *)

(** C4, as stated, fails on a wrap that takes the pending order: the order
    observed, 1, is not the loop order, 0, yet the position is not set back
    to (0, 0) and the previous row is not reset to -1; order 1 becomes the
    loop order and the previous row is the row observed. *)
Lemma switching_wrap_is_not_snapped_back :
  current_order (modext (ad switching_wrap)) ≠ loop_order (ad switching_wrap)
  ∧ cursor (modext (ad (transport switching_wrap)))
    ≠ (loop_order (ad switching_wrap), 0)
  ∧ prev_row (transport switching_wrap) ≠ -1.
Proof. vm_compute. split_and!; discriminate. Qed.

Lemma full_reapply_frame a :
  cursor (Full.modext (Full.reapply_mutes a)) = cursor (Full.modext a).
Proof.
  unfold Full.reapply_mutes. case_decide; [done|]. simpl.
  apply (push_volumes_frame (Full.mute_states a)).
Qed.

(** C4, amended: on a tick of pattern mode the loop order is first brought
    up to date (it becomes the pending order on a wrap whose pending order
    is set and differs from it, and stays otherwise); if the order observed
    differs from that loop order, whatever the row, the position is set to
    (loop order, 0), mutes are reapplied and the previous row becomes -1.
    So after every tick of pattern mode the position cursor is on the loop
    order.  In modplayer_full.c the same test raises [do_pattern_loop] and
    resets the previous row, and the render callback sets the position to
    (loop order, 0). *)
Theorem pattern_loop_drift_snaps_back :
  (∀ s, pattern_mode (ad s) ≠ 0 → is_looping_till (ad s) = 0 →
     let a := ad s in
     let s' := transport s in
     let pend := pending_pattern_mode_order a in
     let wrap := prev_row s = pattern_num_rows (modext a) (loop_pattern a) - 1
                 ∧ current_row (modext a) = 0 in
     let switch := wrap ∧ pend ≠ -1 ∧ pend ≠ loop_order a in
     (switch → loop_order (ad s') = pend)
     ∧ (¬ switch → loop_order (ad s') = loop_order a)
     ∧ (current_order (modext a) ≠ loop_order (ad s') →
        prev_row s' = -1
        ∧ cursor (modext (ad s')) = (loop_order (ad s'), 0)
        ∧ last (position_calls (call_log (modext (ad s'))))
          = Some (CallSetPosition (loop_order (ad s')) 0)
        ∧ (interactive_ok a ≠ 0 → mutes_applied (ad s')))
     ∧ current_order (modext (ad s')) = loop_order (ad s'))
  ∧ (∀ a prev,
       Full.pattern_mode a ≠ 0 →
       current_order (Full.modext a) ≠ Full.loop_order a →
       Full.pattern_loop_block (a, prev) = (Full.set_do_pattern_loop 1 a, -1)
       ∧ cursor (Full.modext (Full.deferred_pattern_loop (Full.set_do_pattern_loop 1 a)))
         = (Full.loop_order a, 0)).
Proof.
  split.
  - intros s Hp Hl a s' pend wrap switch. subst s'.
    rewrite transport_pattern_loop by done.
    destruct (pattern_loop_block_spec s)
      as (Hlo & _ & _ & Hprev & Hj & Hco & Hjump & _).
    fold a in Hlo, Hprev, Hj, Hco, Hjump.
    split_and!.
    + intros Hs. apply adopts_true in Hs. rewrite Hlo. unfold loop_target. by rewrite Hs.
    + intros Hns. rewrite Hlo. unfold loop_target.
      destruct (adopts s) eqn:Had; [|done]. by apply adopts_true in Had.
    + rewrite Hlo. intros Hd.
      destruct (Hjump (or_intror Hd)) as (Hrow & Hm).
      rewrite decide_True in Hprev by done. rewrite decide_True in Hj by done.
      split_and!; try done.
      * unfold cursor. by rewrite Hco, Hrow.
      * rewrite Hj, !app_assoc. apply last_snoc.
    + by rewrite Hlo.
  - intros a prev Hp Hd. split.
    + unfold Full.pattern_loop_block. unfold_getters.
      rewrite decide_True by done. by rewrite decide_False by done.
    + unfold Full.deferred_pattern_loop. simpl.
      case_decide; simpl; [|done]. by rewrite full_reapply_frame.
Qed.

(** Order 2, row 5 observed while order 0 is looped. *)
Lemma pattern_loop_drift_snaps_back_witness :
  prev_row (transport (pattern_state 2 5 4 (-1))) = -1
  ∧ cursor (modext (ad (transport (pattern_state 2 5 4 (-1))))) = (0, 0).
Proof.
  destruct pattern_loop_drift_snaps_back as (Htick & _).
  destruct (Htick (pattern_state 2 5 4 (-1))) as (_ & _ & Hsnap & _); [done|done|].
  destruct Hsnap as (Hprev & Hcur & _); [by vm_compute|].
  split; [exact Hprev|exact Hcur].
Defined.

(** ** C5 and C10: loop till row *)

Lemma apply_loop_till_row a cmd :
  type cmd = PLAYBACK_LOOP_TILL_ROW →
  let a' := apply_command a cmd in
  cursor (modext a') = (order cmd, 0)
  ∧ jumps_issued (modext a) (modext a') [CallSetPosition (order cmd) 0]
  ∧ (interactive_ok a ≠ 0 → mutes_applied a')
  ∧ is_looping_till a' = 1
  ∧ loop_order a' = order cmd
  ∧ loop_pattern a' = order_pattern (modext a) (order cmd)
  ∧ loop_till_row a' = row cmd
  ∧ pattern_mode a' = pattern_mode a
  ∧ pending_pattern_mode_order a' = pending_pattern_mode_order a.
Proof.
  intros Ht a'. subst a'. unfold apply_command, jumps_issued, cursor. rewrite Ht.
  unfold_getters. engine_simpl. split_and!; try done.
  intros Hok. reapplied_mutes.
Qed.

(** C5, as stated, fails on the confinement: with the engine seen on
    another order, even right at a wrap, the tick sets no position; the
    cursor stays outside the loop order and the state is still
    loop-till-row. *)
Lemma loop_till_row_does_not_confine :
  prev_row past_the_loop
  = pattern_num_rows (modext (ad past_the_loop)) (loop_pattern (ad past_the_loop)) - 1
  ∧ current_row (modext (ad past_the_loop)) = 0
  ∧ is_looping_till (ad (transport past_the_loop)) ≠ 0
  ∧ current_order (modext (ad (transport past_the_loop)))
    ≠ loop_order (ad (transport past_the_loop))
  ∧ call_log (modext (ad (transport past_the_loop))) = call_log (modext (ad past_the_loop)).
Proof. vm_compute. split_and!; (reflexivity || discriminate). Qed.

(** C5, amended: applying a LoopTillRow(order, row) command sets the
    position to (order, 0), reapplies mutes and enters loop-till-row,
    keeping the mode flag and the pending order as they were.  On a tick of
    that state: the state is left exactly when the order and row observed
    are the loop order and the stop row, and then no call is issued and the
    mode flag is as before; with the loop order observed on another row, a
    wrap (previous row the last row of the looped pattern, current row 0)
    sets the position to (loop order, 0) and reapplies mutes, and any other
    row issues nothing; with another order observed no position is set and
    only the previous row is reset to -1, so nothing holds the engine on
    the loop order. *)
Theorem loop_till_row_exits_at_stop_row :
  (∀ a cmd, type cmd = PLAYBACK_LOOP_TILL_ROW →
     let a' := apply_command a cmd in
     cursor (modext a') = (order cmd, 0)
     ∧ jumps_issued (modext a) (modext a') [CallSetPosition (order cmd) 0]
     ∧ (interactive_ok a ≠ 0 → mutes_applied a')
     ∧ is_looping_till a' = 1
     ∧ loop_order a' = order cmd
     ∧ loop_pattern a' = order_pattern (modext a) (order cmd)
     ∧ loop_till_row a' = row cmd
     ∧ pattern_mode a' = pattern_mode a
     ∧ pending_pattern_mode_order a' = pending_pattern_mode_order a)
  ∧ (∀ s, is_looping_till (ad s) ≠ 0 →
       let a := ad s in
       let s' := transport s in
       let co := current_order (modext a) in
       let cr := current_row (modext a) in
       let wrap := prev_row s = pattern_num_rows (modext a) (loop_pattern a) - 1
                   ∧ cr = 0 in
       (is_looping_till (ad s') = 0 ↔ co = loop_order a ∧ cr = loop_till_row a)
       ∧ (co = loop_order a → cr = loop_till_row a →
          modext (ad s') = modext a ∧ pattern_mode (ad s') = pattern_mode a)
       ∧ (co = loop_order a → cr ≠ loop_till_row a → wrap →
          cursor (modext (ad s')) = (loop_order a, 0)
          ∧ jumps_issued (modext a) (modext (ad s')) [CallSetPosition (loop_order a) 0]
          ∧ (interactive_ok a ≠ 0 → mutes_applied (ad s')))
       ∧ (co = loop_order a → cr ≠ loop_till_row a → ¬ wrap →
          modext (ad s') = modext a)
       ∧ (co ≠ loop_order a →
          modext (ad s') = modext a ∧ prev_row s' = -1)).
Proof.
  split; [exact apply_loop_till_row|].
  intros s Hl a s' co cr wrap. subst s' a co cr wrap.
  rewrite transport_loop_till_row by done.
  unfold loop_till_row_block, jumps_issued, cursor. unfold_getters.
  destruct (decide (current_order (modext (ad s)) = loop_order (ad s))) as [Ho|Ho].
  - destruct (decide (current_row (modext (ad s)) = loop_till_row (ad s))) as [Hr|Hr].
    + simpl. split_and!; try done.
    + destruct (bool_decide (prev_row s = _) && _) eqn:Hw.
      * engine_simpl. split_and!; try done.
        -- split; [intros ?; lia|]. intros [_ ?]; done.
        -- intros _ _ _. split_and!; try done. intros Hok. reapplied_mutes.
        -- intros _ _ Hnw. exfalso. apply Hnw.
           apply andb_true_iff in Hw as [Hw1 Hw2].
           by apply bool_decide_eq_true in Hw1, Hw2.
      * simpl. split_and!; try done.
        -- split; [intros ?; lia|]. intros [_ ?]; done.
        -- intros _ _ [Hw1 Hw2].
           by rewrite (bool_decide_eq_true_2 _ Hw1), (bool_decide_eq_true_2 _ Hw2) in Hw.
  - simpl. split_and!; try done.
    split; [intros ?; lia|]. intros [? _]; done.
Qed.

(** Row 5 awaited on order 2: seen at (2, 5) the state is left; seen at
    (2, 0) after row 7 the position is set back to (2, 0). *)
Lemma loop_till_row_exits_at_stop_row_witness :
  is_looping_till (ad (transport (loop_till_row_state 2 5 4 5))) = 0
  ∧ cursor (modext (ad (transport (loop_till_row_state 2 0 7 5)))) = (2, 0).
Proof.
  destruct loop_till_row_exits_at_stop_row as (_ & Htick). split.
  - destruct (Htick (loop_till_row_state 2 5 4 5)) as (Hexit & _); [done|].
    apply Hexit. by vm_compute.
  - destruct (Htick (loop_till_row_state 2 0 7 5)) as (_ & _ & Hwrap & _); [done|].
    destruct Hwrap as (Hcur & _); [by vm_compute|by vm_compute|by vm_compute|].
    exact Hcur.
Defined.

(** C10: a LoopTillRow command with stop row 0 puts the cursor, by its own
    jump to (order, 0), on the position that ends the state; while that
    state lasts no tick of the control loop issues any call to the engine,
    so the pattern is never set back to row 0; and the first tick that sees
    the loop order at row 0 leaves the state, as does the tick that follows
    the command when the engine has not moved. *)
Theorem loop_till_row_zero_exits_at_once a cmd :
  type cmd = PLAYBACK_LOOP_TILL_ROW → row cmd = 0 →
  let a' := apply_command a cmd in
  cursor (modext a') = (loop_order a', loop_till_row a')
  ∧ is_looping_till a' ≠ 0
  ∧ (∀ s, is_looping_till (ad s) ≠ 0 → loop_till_row (ad s) = 0 →
       modext (ad (transport s)) = modext (ad s)
       ∧ (cursor (modext (ad s)) = (loop_order (ad s), 0) →
          is_looping_till (ad (transport s)) = 0))
  ∧ (∀ s, ad s = a' →
       is_looping_till (ad (transport s)) = 0
       ∧ modext (ad (transport s)) = modext a').
Proof.
  intros Ht Hr a'.
  destruct (apply_loop_till_row a cmd Ht) as (Hcur & _ & _ & Hl & Hlo & _ & Hstop & _).
  fold a' in Hcur, Hl, Hlo, Hstop.
  assert (∀ s, is_looping_till (ad s) ≠ 0 → loop_till_row (ad s) = 0 →
            modext (ad (transport s)) = modext (ad s)
            ∧ (cursor (modext (ad s)) = (loop_order (ad s), 0) →
               is_looping_till (ad (transport s)) = 0)) as Htick.
  { intros s Hs H0. rewrite transport_loop_till_row by done.
    unfold loop_till_row_block, cursor. unfold_getters. rewrite H0.
    destruct (decide (current_order (modext (ad s)) = loop_order (ad s))) as [Ho|Ho].
    - destruct (decide (current_row (modext (ad s)) = 0)) as [Hz|Hz]; [done|].
      rewrite (bool_decide_eq_false_2 (current_row (modext (ad s)) = 0)) by done.
      rewrite andb_false_r. simpl. split; [done|]. intros [= _ ?]. done.
    - simpl. split; [done|]. intros [= ? _]. done. }
  split_and!.
  - by rewrite Hcur, Hlo, Hstop, Hr.
  - lia.
  - exact Htick.
  - intros s Hs. destruct (Htick s) as (Hm & Hexit).
    + rewrite Hs. lia.
    + rewrite Hs. lia.
    + rewrite <-Hs. split; [|done]. apply Hexit.
      rewrite Hs, Hcur, Hlo. done.
Qed.

(** [j] pressed on row 0 of order 2. *)
Lemma loop_till_row_zero_exits_at_once_witness :
  is_looping_till
    (ad (transport (initial_main_state (apply_command demo_ad (loop_till 2 0))))) = 0.
Proof.
  pose proof (loop_till_row_zero_exits_at_once demo_ad (loop_till 2 0) eq_refl eq_refl)
    as Hzero.
  cbv zeta in Hzero. destruct Hzero as (_ & _ & _ & Hnext).
  apply Hnext. reflexivity.
Defined.

(** ** C6: the one-shot jump of song mode *)




(** Lines 104-110 with the flag up. *)
Lemma consume_queued_jump_spec d :
  has_queued_jump d ≠ 0 →
  let d' := consume_queued_jump d in
  d' = set_has_queued_jump 0 (set_modext (modext d') d)
  ∧ cursor (modext d') = (queued_order d, queued_row d)
  ∧ jumps_issued (modext d) (modext d')
      [CallSetPosition (queued_order d) (queued_row d)]
  ∧ (interactive_ok d ≠ 0 → mutes_applied d').
Proof.
  intros Hq d'. subst d'. unfold consume_queued_jump.
  rewrite decide_True by done.
  unfold cursor, jumps_issued. engine_simpl. split_and!; try done.
  intros Hok. reapplied_mutes.
Qed.

(** The flag is down whenever a callback returns: the control loop never
    finds it raised between two callbacks. *)
Lemma audio_callback_clears_flag read fuel len data data' fill :
  audio_callback read fuel len data = Some (data', fill) → has_queued_jump data' = 0.
Proof.
  unfold audio_callback. destruct (process_commands fuel data) as [d|]; [|done].
  assert (has_queued_jump (consume_queued_jump d) = 0) as Hflag.
  { destruct (decide (has_queued_jump d ≠ 0)) as [Hq|Hq].
    - destruct (consume_queued_jump_spec d Hq) as (-> & _). done.
    - unfold consume_queued_jump. rewrite decide_False by done. by apply dec_stable. }
  unfold render_stream. case_decide.
  - intros [= <- _]. done.
  - destruct (read _ _ _) as [m count]. intros [= <- _]. done.
Qed.




(** ** C7: who moves the position cursor *)

Lemma cursor_kept_refl m : cursor_kept m m.
Proof. done. Qed.

Lemma enqueue_command_modext a t o r : modext (enqueue_command a t o r) = modext a.
Proof. unfold enqueue_command. by case_decide. Qed.

Lemma cursor_kept_trans m1 m2 m3 :
  cursor_kept m1 m2 → cursor_kept m2 m3 → cursor_kept m1 m3.
Proof. intros [H1 H2] [H3 H4]. split; congruence. Qed.

Lemma set_all_channels_cursor v vol a :
  cursor_kept (modext a) (modext (set_all_channels v vol a)).
Proof.
  unfold set_all_channels. generalize (seqZ 0 (num_channels a)). intros chs.
  revert a. induction chs as [|ch chs IH]; intros a; [done|].
  eapply cursor_kept_trans; [|apply IH].
  simpl. split; [done|]. apply position_calls_volume.
Qed.

Lemma toggle_channel_cursor ch s :
  cursor_kept (modext (ad s)) (modext (ad (toggle_channel ch s))).
Proof.
  unfold toggle_channel. case_decide; [|done]. simpl. split; [done|].
  apply position_calls_volume.
Qed.

(** C7, as stated, fails: the [r] key handler, on the control loop, moves
    the cursor from (2, 5) to (2, 0) with a set-position call of its
    own. *)
Lemma retrigger_moves_the_cursor :
  cursor (modext (ad (handle_key (chr "r") playing_at_2_5)))
  ≠ cursor (modext (ad playing_at_2_5))
  ∧ position_calls (call_log (modext (ad (handle_key (chr "r") playing_at_2_5))))
    = [CallSetPosition 2 0].
Proof. split; [vm_compute; discriminate|by vm_compute]. Qed.

(** The calls of the loop-till-row branch: one jump to (loop order, 0) at a
    wrap seen on the loop order off the stop row, nothing otherwise. *)
Lemma loop_till_row_block_calls s :
  let a := ad s in
  let wrap := prev_row s = pattern_num_rows (modext a) (loop_pattern a) - 1
              ∧ current_row (modext a) = 0 in
  let looping := current_order (modext a) = loop_order a
                 ∧ current_row (modext a) ≠ loop_till_row a in
  (looping → wrap →
   jumps_issued (modext a) (modext (ad (loop_till_row_block s)))
     [CallSetPosition (loop_order a) 0])
  ∧ (¬ (looping ∧ wrap) → modext (ad (loop_till_row_block s)) = modext a).
Proof.
  intros a wrap looping. subst a wrap looping.
  unfold loop_till_row_block, jumps_issued. unfold_getters.
  destruct (decide (current_order (modext (ad s)) = loop_order (ad s))) as [Ho|Ho].
  - destruct (decide (current_row (modext (ad s)) = loop_till_row (ad s))) as [Hr|Hr].
    + simpl. split; [|done]. intros [_ ?]. done.
    + destruct (bool_decide (prev_row s = _) && _) eqn:Hw.
      * engine_simpl. split; [done|].
        intros Hn. exfalso. apply Hn.
        apply andb_true_iff in Hw as [Hw1 Hw2].
        by apply bool_decide_eq_true in Hw1, Hw2.
      * simpl. split; [|done]. intros _ [Hw1 Hw2].
        by rewrite (bool_decide_eq_true_2 _ Hw1), (bool_decide_eq_true_2 _ Hw2) in Hw.
  - simpl. split; [|done]. intros [? _]. done.
Qed.

(** C7, amended: set-position calls come from the render callback when it
    applies a LoopTillRow command during the drain or consumes the jump
    that a QueueOrder command of song mode flagged (applying a QueueOrder
    command issues none itself), and from the control loop: the [r] key
    handler jumps to (current order, 0), and the state machine polled after
    the keys jumps to the loop order at a wrap and on drift in pattern
    mode, jumps to the loop order at a wrap seen on the loop order off the
    stop row in loop till row, and consumes a flagged jump it sees in song
    mode; on every other turn it leaves the engine as it is.  Every other
    key handler, those that enqueue included, leaves the position cursor
    where it is and issues no set-position call. *)
Theorem only_retrigger_key_moves_cursor :
  (∀ k s, k ≠ chr "r" → k ≠ chr "R" →
     cursor_kept (modext (ad s)) (modext (ad (handle_key k s))))
  ∧ (∀ k s, k = chr "r" ∨ k = chr "R" →
       jumps_issued (modext (ad s)) (modext (ad (handle_key k s)))
         [CallSetPosition (current_order (modext (ad s))) 0]
       ∧ cursor (modext (ad (handle_key k s))) = (current_order (modext (ad s)), 0))
  ∧ (∀ a cmd, type cmd = PLAYBACK_QUEUE_ORDER → modext (apply_command a cmd) = modext a)
  ∧ (∀ a cmd, type cmd = PLAYBACK_LOOP_TILL_ROW →
       jumps_issued (modext a) (modext (apply_command a cmd))
         [CallSetPosition (order cmd) 0])
  ∧ (∀ data, has_queued_jump data ≠ 0 →
       jumps_issued (modext data) (modext (consume_queued_jump data))
         [CallSetPosition (queued_order data) (queued_row data)])
  ∧ (∀ s, pattern_mode (ad s) ≠ 0 → is_looping_till (ad s) = 0 →
       current_order (modext (ad s)) ≠ loop_order (ad (transport s)) →
       last (position_calls (call_log (modext (ad (transport s)))))
       = Some (CallSetPosition (loop_order (ad (transport s))) 0))
  ∧ (∀ s, pattern_mode (ad s) = 0 → is_looping_till (ad s) = 0 →
       has_queued_jump (ad s) ≠ 0 →
       jumps_issued (modext (ad s)) (modext (ad (transport s)))
         [CallSetPosition (queued_order (ad s)) (queued_row (ad s))])
  ∧ (∀ s, pattern_mode (ad s) ≠ 0 → is_looping_till (ad s) = 0 →
       let a := ad s in
       let wrap := prev_row s = pattern_num_rows (modext a) (loop_pattern a) - 1
                   ∧ current_row (modext a) = 0 in
       (wrap →
        ∃ calls,
          jumps_issued (modext a) (modext (ad (transport s)))
            (CallSetPosition (loop_order (ad (transport s))) 0 :: calls))
       ∧ (¬ wrap → current_order (modext a) = loop_order a →
          modext (ad (transport s)) = modext a))
  ∧ (∀ s, is_looping_till (ad s) ≠ 0 →
       let a := ad s in
       let wrap := prev_row s = pattern_num_rows (modext a) (loop_pattern a) - 1
                   ∧ current_row (modext a) = 0 in
       let looping := current_order (modext a) = loop_order a
                      ∧ current_row (modext a) ≠ loop_till_row a in
       (looping → wrap →
        jumps_issued (modext a) (modext (ad (transport s)))
          [CallSetPosition (loop_order a) 0])
       ∧ (¬ (looping ∧ wrap) → modext (ad (transport s)) = modext a))
  ∧ (∀ s, pattern_mode (ad s) = 0 → is_looping_till (ad s) = 0 →
       has_queued_jump (ad s) = 0 → transport s = s).
Proof.
  split_and!.
  - intros k s Hr HR. unfold handle_key.
    rewrite (bool_decide_eq_false_2 (k = chr "r")), (bool_decide_eq_false_2 (k = chr "R"))
      by done.
    cbn [orb].
    repeat match goal with
           | |- context [if ?c then _ else _] => destruct c
           end;
      simpl; rewrite ?enqueue_command_modext;
      first [ apply cursor_kept_refl
            | apply toggle_channel_cursor
            | apply set_all_channels_cursor ].
  - intros k s Hk. unfold handle_key. chr_consts.
    assert (bool_decide (k = 114) || bool_decide (k = 82) = true) as ->.
    { destruct Hk as [->| ->]; done. }
    assert (bool_decide (k = 27) || bool_decide (k = 113) || bool_decide (k = 81) = false)
      as ->.
    { destruct Hk as [->| ->]; done. }
    assert (bool_decide (k = 32) = false) as ->.
    { destruct Hk as [->| ->]; done. }
    unfold jumps_issued, cursor. unfold_getters. engine_simpl. done.
  - intros a cmd Ht. unfold apply_command. rewrite Ht. by case_decide.
  - intros a cmd Ht. by destruct (apply_loop_till_row a cmd Ht) as (_ & Hj & _).
  - intros data Hq. by destruct (consume_queued_jump_spec data Hq) as (_ & _ & Hj & _).
  - intros s Hp Hl. rewrite transport_pattern_loop by done.
    destruct (pattern_loop_block_spec s) as (Hlo & _ & _ & _ & Hj & _).
    rewrite Hlo. intros Hd. rewrite decide_True in Hj by done.
    rewrite Hj, !app_assoc. apply last_snoc.
  - intros s Hp Hl Hq. unfold transport.
    rewrite (bool_decide_eq_false_2 (pattern_mode (ad s) ≠ 0)) by (intros ?; done).
    cbn [andb]. rewrite decide_False by (intros ?; done).
    rewrite decide_True by done.
    unfold queued_jump_block, jumps_issued. engine_simpl. done.
  - intros s Hp Hl a wrap. subst a wrap. rewrite transport_pattern_loop by done.
    destruct (pattern_loop_block_spec s) as (Hlo & _ & _ & _ & Hj & _ & _ & Hidle).
    split.
    + intros Hw. apply wraps_true in Hw. rewrite Hw in Hj. rewrite Hlo.
      eexists. exact Hj.
    + intros Hnw Hco.
      assert (wraps s = false) as Hwf.
      { destruct (wraps s) eqn:Hw; [|done]. by apply wraps_true in Hw. }
      apply Hidle; [done|]. unfold loop_target, adopts. by rewrite Hwf.
  - intros s Hl a wrap looping. subst a wrap looping.
    rewrite transport_loop_till_row by done. apply loop_till_row_block_calls.
  - intros s Hp Hl Hq. unfold transport.
    rewrite (bool_decide_eq_false_2 (pattern_mode (ad s) ≠ 0)) by (intros ?; done).
    cbn [andb]. rewrite decide_False by (intros ?; done).
    by rewrite decide_False by (intros ?; done).
Qed.

(** [n] on order 2 enqueues and leaves the cursor at (2, 5). *)
Lemma only_retrigger_key_moves_cursor_witness :
  cursor (modext (ad (handle_key (chr "n") playing_at_2_5))) = (2, 5).
Proof.
  destruct only_retrigger_key_moves_cursor as (Hkeys & _).
  destruct (Hkeys (chr "n") playing_at_2_5) as (Hcur & _);
    [vm_compute; discriminate|vm_compute; discriminate|].
  exact Hcur.
Defined.

(** ** C2: the drain is first-in first-out *)

Lemma last_filter_snoc {A} (P : A → Prop) `{∀ x, Decision (P x)} (l : list A) (x : A) :
  last (filter P (l ++ [x])) = if decide (P x) then Some x else last (filter P l).
Proof.
  rewrite filter_app, filter_cons, filter_nil.
  case_decide; [apply last_snoc|by rewrite app_nil_r].
Qed.

Lemma loop_till_jumps_snoc l c :
  loop_till_jumps (l ++ [c])
  = loop_till_jumps l ++ (if is_loop_till c then [CallSetPosition (order c) 0] else []).
Proof.
  unfold loop_till_jumps. rewrite fmap_app, concat_app. simpl. by rewrite app_nil_r.
Qed.

(** What one command does, kind by kind. *)
Lemma apply_command_effect a c :
  (type c = PLAYBACK_NONE → apply_command a c = a)
  ∧ (type c = PLAYBACK_QUEUE_ORDER → pattern_mode a ≠ 0 →
     apply_command a c = set_pending_pattern_mode_order (order c) a)
  ∧ (type c = PLAYBACK_QUEUE_ORDER → pattern_mode a = 0 →
     apply_command a c
     = set_has_queued_jump 1 (set_queued_row (row c) (set_queued_order (order c) a)))
  ∧ (type c = PLAYBACK_LOOP_TILL_ROW →
     apply_command a c
     = set_modext (modext (apply_command a c))
         (set_is_looping_till 1
            (set_loop_till_row (row c)
               (set_loop_pattern (order_pattern (modext a) (order c))
                  (set_loop_order (order c) a))))
     ∧ cursor (modext (apply_command a c)) = (order c, 0)
     ∧ jumps_issued (modext a) (modext (apply_command a c)) [CallSetPosition (order c) 0]
     ∧ order_pattern (modext (apply_command a c)) = order_pattern (modext a)
     ∧ (interactive_ok a ≠ 0 → mutes_applied (apply_command a c))).
Proof.
  unfold apply_command. split_and!; intros Ht; rewrite Ht.
  - done.
  - intros Hp. by rewrite decide_True.
  - intros Hp. by rewrite decide_False by lia.
  - unfold jumps_issued, cursor. unfold_getters. engine_simpl.
    split_and!; try done. intros Hok. reapplied_mutes.
Qed.

(** The transport state after a run of commands applied one after the
    other, read off the run. *)
Lemma foldl_apply_effect a l :
  let a' := foldl apply_command a l in
  (pattern_mode a' = pattern_mode a
   ∧ order_pattern (modext a') = order_pattern (modext a))
  ∧ jumps_issued (modext a) (modext a') (loop_till_jumps l)
  ∧ (loop_order a' = from_option order (loop_order a) (last_loop_till l)
     ∧ loop_till_row a' = from_option row (loop_till_row a) (last_loop_till l)
     ∧ loop_pattern a'
       = from_option (fun c => order_pattern (modext a) (order c)) (loop_pattern a)
           (last_loop_till l)
     ∧ is_looping_till a' = from_option (fun _ => 1) (is_looping_till a) (last_loop_till l)
     ∧ cursor (modext a')
       = from_option (fun c => (order c, 0)) (cursor (modext a)) (last_loop_till l))
  ∧ (pattern_mode a ≠ 0 →
     pending_pattern_mode_order a'
     = from_option order (pending_pattern_mode_order a) (last_queue_order l)
     ∧ queued_order a' = queued_order a ∧ queued_row a' = queued_row a
     ∧ has_queued_jump a' = has_queued_jump a)
  ∧ (pattern_mode a = 0 →
     pending_pattern_mode_order a' = pending_pattern_mode_order a
     ∧ queued_order a' = from_option order (queued_order a) (last_queue_order l)
     ∧ queued_row a' = from_option row (queued_row a) (last_queue_order l)
     ∧ has_queued_jump a'
       = from_option (fun _ => 1) (has_queued_jump a) (last_queue_order l)).
Proof.
  induction l as [|c l IH] using rev_ind.
  - simpl. unfold jumps_issued. split_and!; try done. by rewrite app_nil_r.
  - rewrite foldl_app. cbn [foldl]. cbv zeta in IH.
    set (b := foldl apply_command a l) in *.
    destruct IH as ((Hpm & Hop) & Hj & (Hlo & Hlr & Hlp & Hil & Hcur) & Hpat & Hsong).
    unfold last_loop_till, last_queue_order in *. rewrite !last_filter_snoc.
    rewrite loop_till_jumps_snoc.
    destruct (apply_command_effect b c) as (Hnone & Hqp & Hqs & Hlt).
    unfold is_loop_till, is_queue_order. unfold jumps_issued in *.
    destruct (type c) eqn:Ht.
    + rewrite Hnone by done. rewrite !decide_False by done.
      split_and!; try done. by rewrite app_nil_r.
    + rewrite (decide_False (P := false = true)) by done.
      rewrite (decide_True (P := true = true)) by done.
      rewrite app_nil_r.
      destruct (decide (pattern_mode a = 0)) as [Hz|Hnz].
      * rewrite Hqs by congruence. simpl. split_and!; try done.
        intros _. destruct (Hsong Hz) as (? & _). done.
      * rewrite Hqp by congruence. simpl. split_and!; try done.
        intros _. destruct (Hpat Hnz) as (_ & ? & ? & ?). done.
    + rewrite (decide_True (P := true = true)) by done.
      rewrite (decide_False (P := false = true)) by done.
      destruct (Hlt eq_refl) as (Hframe & Hc & Hjc & Hopc & _).
      rewrite Hjc, Hj, Hopc, Hc, <-app_assoc. rewrite Hframe. simpl.
      rewrite Hop. split_and!; try done.
Qed.

Lemma enqueue_all_frame a cmds :
  enqueue_all a cmds
  = set_command_queue_tail (command_queue_tail (enqueue_all a cmds))
      (set_command_queue (command_queue (enqueue_all a cmds)) a).
Proof.
  revert a. induction cmds as [|c cmds IH]; intros a; [by destruct a|].
  simpl. rewrite (IH (enqueue a c)) at 1.
  unfold enqueue, enqueue_command. case_decide; reflexivity.
Qed.

(** C2, as stated, fails at the capacity the spec gives, eight: after
    eight enqueues on an empty queue the drain applies seven commands; it
    leaves order 7 queued, where the eight commands applied in order leave
    order 8. *)
Lemma eight_enqueues_apply_seven :
  queued_order <$> process_commands 8 (enqueue_all demo_ad eight_commands) = Some 7
  ∧ queued_order
      (foldl apply_command (enqueue_all demo_ad eight_commands) eight_commands) = 8.
Proof. split; by vm_compute. Qed.

(** C2, amended: after any run of enqueues on an empty queue, the commands
    the queue holds are the first seven of the run (the whole run when it
    has at most seven), and [process_commands], with fuel for that many
    turns, returns with [head] equal to [tail], having applied exactly
    those commands in enqueue order, each on the state its predecessor
    left.  What applying a command does to the transport state is spelled
    out kind by kind, and so is the state the drain leaves: the jumps
    issued are one (order, 0) per LoopTillRow command, in enqueue order;
    loop order, looped pattern, stop row, loop-till flag and cursor are
    those of the last LoopTillRow command; the pending order in pattern
    mode, or the queued order, the queued row and the one-shot flag in song
    mode, are those of the last QueueOrder command; a field no command of
    its kind touched is as it was. *)
Theorem process_commands_fifo ad cmds fuel :
  queue_wf ad →
  command_queue_head ad = command_queue_tail ad →
  (length cmds <= fuel)%nat →
  let filled := enqueue_all ad cmds in
  let applied := take (Z.to_nat (MAX_COMMANDS - 1)) cmds in
  ∃ result,
    process_commands fuel filled = Some result
    ∧ command_queue_head result = command_queue_tail result
    ∧ pending_commands filled = applied
    ∧ ((length cmds <= Z.to_nat (MAX_COMMANDS - 1))%nat → applied = cmds)
    ∧ filled = set_command_queue_tail (command_queue_tail filled)
                 (set_command_queue (command_queue filled) ad)
    ∧ result = set_command_queue_head (command_queue_tail filled)
                 (foldl apply_command filled applied)
    ∧ (∀ a c,
         (type c = PLAYBACK_NONE → apply_command a c = a)
         ∧ (type c = PLAYBACK_QUEUE_ORDER → pattern_mode a ≠ 0 →
            apply_command a c = set_pending_pattern_mode_order (order c) a)
         ∧ (type c = PLAYBACK_QUEUE_ORDER → pattern_mode a = 0 →
            apply_command a c
            = set_has_queued_jump 1
                (set_queued_row (row c) (set_queued_order (order c) a)))
         ∧ (type c = PLAYBACK_LOOP_TILL_ROW →
            apply_command a c
            = set_modext (modext (apply_command a c))
                (set_is_looping_till 1
                   (set_loop_till_row (row c)
                      (set_loop_pattern (order_pattern (modext a) (order c))
                         (set_loop_order (order c) a))))
            ∧ cursor (modext (apply_command a c)) = (order c, 0)
            ∧ jumps_issued (modext a) (modext (apply_command a c))
                [CallSetPosition (order c) 0]
            ∧ order_pattern (modext (apply_command a c)) = order_pattern (modext a)
            ∧ (interactive_ok a ≠ 0 → mutes_applied (apply_command a c))))
    ∧ pattern_mode result = pattern_mode filled
    ∧ jumps_issued (modext filled) (modext result) (loop_till_jumps applied)
    ∧ (loop_order result = from_option order (loop_order filled) (last_loop_till applied)
       ∧ loop_till_row result
         = from_option row (loop_till_row filled) (last_loop_till applied)
       ∧ loop_pattern result
         = from_option (fun c => order_pattern (modext filled) (order c))
             (loop_pattern filled) (last_loop_till applied)
       ∧ is_looping_till result
         = from_option (fun _ => 1) (is_looping_till filled) (last_loop_till applied)
       ∧ cursor (modext result)
         = from_option (fun c => (order c, 0)) (cursor (modext filled))
             (last_loop_till applied))
    ∧ (pattern_mode filled ≠ 0 →
       pending_pattern_mode_order result
       = from_option order (pending_pattern_mode_order filled) (last_queue_order applied)
       ∧ queued_order result = queued_order filled
       ∧ queued_row result = queued_row filled
       ∧ has_queued_jump result = has_queued_jump filled)
    ∧ (pattern_mode filled = 0 →
       pending_pattern_mode_order result = pending_pattern_mode_order filled
       ∧ queued_order result
         = from_option order (queued_order filled) (last_queue_order applied)
       ∧ queued_row result
         = from_option row (queued_row filled) (last_queue_order applied)
       ∧ has_queued_jump result
         = from_option (fun _ => 1) (has_queued_jump filled) (last_queue_order applied)).
Proof.
  intros Hwf Hempty Hfuel filled applied.
  assert (pending_commands filled = applied) as Hpending.
  { unfold filled, applied. rewrite enqueue_all_pending by done.
    by rewrite pending_empty. }
  eexists. split.
  { rewrite process_commands_drained.
    - reflexivity.
    - by apply enqueue_all_wf.
    - rewrite <-pending_length, Hpending. unfold applied.
      rewrite length_take. lia. }
  unfold drained. rewrite Hpending.
  destruct (foldl_apply_effect filled applied)
    as ((Hpm & _) & Hj & (Hlo & Hlr & Hlp & Hil & Hcur) & Hpat & Hsong).
  split_and!; try done.
  - simpl. by rewrite foldl_apply_tail.
  - intros Hlen. by apply take_ge.
  - apply enqueue_all_frame.
  - apply apply_command_effect.
Qed.

(** A QueueOrder, a LoopTillRow and a QueueOrder drained in song mode:
    one jump, to (2, 0); order 3 queued. *)
Lemma process_commands_fifo_witness :
  ∃ result,
    process_commands 3 (enqueue_all demo_ad three_commands) = Some result
    ∧ position_calls (call_log (modext result)) = [CallSetPosition 2 0]
    ∧ queued_order result = 3.
Proof.
  destruct (process_commands_fifo demo_ad three_commands 3 demo_ad_wf eq_refl)
    as (result & Hrun & _ & _ & _ & _ & _ & _ & _ & Hj & _ & _ & Hsong); [simpl; lia|].
  exists result. split; [exact Hrun|]. split.
  - exact Hj.
  - destruct Hsong as (_ & Hqo & _); [reflexivity|]. exact Hqo.
Defined.

(** ** A session run end to end: four orders, three channels.  [s] on order 0 enters pattern mode; [n]
    queues order 1; the next callback, paused, records it as pending and
    issues nothing; a tick on the last row changes nothing; the tick that
    sees the engine on row 0 of order 1 makes order 1 the loop. *)

Example pattern_switch_session :
  ∃ data,
    audio_callback silent_renderer 8 1024
      (ad (main_iteration (chr "n") (main_iteration (chr "s") demo_main)))
    = Some (data, Silence)
    ∧ pending_pattern_mode_order data = 1
    ∧ loop_order data = 0
    ∧ call_log (modext data) = []
    ∧ loop_order
        (ad (main_iteration (-1) (seen_at 0 7 (set_ad data demo_main)))) = 0
    ∧ loop_order
        (ad (main_iteration (-1)
               (seen_at 1 0
                  (main_iteration (-1) (seen_at 0 7 (set_ad data demo_main)))))) = 1.
Proof. eexists. split; [by vm_compute|]. by vm_compute. Qed.

(** * Further properties of the players *)

(** ** What the keys do *)

Ltac pick_effect :=
  first [ apply key_nothing | apply key_pause | apply key_retrigger
        | apply key_enqueue; unfold_getters; lia
        | apply key_pattern_on | apply key_pattern_off
        | apply key_pitch ].

Ltac split_tests :=
  repeat match goal with
         | H : _ && _ = true |- _ => apply andb_true_iff in H as [? ?]
         | H : bool_decide _ = true |- _ => apply bool_decide_eq_true in H
         end.

(** Splits on the outermost tests of the goal, one after the other. *)
Ltac walk_tests :=
  repeat match goal with
         | |- context [if ?c then _ else _] =>
             lazymatch type of c with
             | bool => destruct c eqn:?
             | _ => destruct c
             end
         end.

Lemma lnot_cases x : (x = 0 ∧ lnot x = 1) ∨ (x ≠ 0 ∧ lnot x = 0).
Proof. unfold lnot. case_decide; [by left|by right]. Qed.

Lemma handle_key_effect k s : key_effect (ad s) (ad (handle_key k s)).
Proof.
  unfold handle_key.
  walk_tests; simpl; try pick_effect; split_tests.
  - unfold_getters. destruct (lnot_cases (pattern_mode (ad s))) as [[_ Hz]|[_ Hz]].
    + rewrite Hz. apply key_pattern_on.
    + simpl in *. done.
  - destruct (lnot_cases (pattern_mode (ad s))) as [[_ Hz]|[_ Hz]].
    + simpl in *. lia.
    + rewrite Hz. apply key_pattern_off.
  - unfold toggle_channel.
    destruct (decide (k - chr "1" < num_channels (ad s))); simpl; [|apply key_nothing].
    apply key_toggle; [done|]. chr_consts. lia.
  - apply (key_all _ 1); [done|by right].
  - apply (key_all _ 0); [done|by left].
Qed.

(** ** What a session keeps *)

Lemma volumes_agree_ext ms n m m' :
  channel_volume m' = channel_volume m → volumes_agree ms n m → volumes_agree ms n m'.
Proof. intros Heq Hag ch v Hch. rewrite Heq. by apply Hag. Qed.

Lemma reapplied_agree x :
  volumes_agree (mute_states x) (num_channels x) (modext x) →
  volumes_agree (mute_states x) (num_channels x) (reapplied x).
Proof.
  intros Hag. unfold reapplied. rewrite reapply_mutes_if_ok_eq, reapply_mutes_unfold.
  case_decide; [done|]. simpl. intros ch v Hch. rewrite push_volumes_lookup.
  destruct (decide (ch ∈ seqZ 0 (num_channels x))); [by intros [= <-]|by apply Hag].
Qed.

Lemma lnot_boolean x : lnot x = 0 ∨ lnot x = 1.
Proof. destruct (lnot_cases x) as [[_ ->]|[_ ->]]; [by right|by left]. Qed.

Lemma fill_mutes_length v ms chs : length (fill_mutes v ms chs) = length ms.
Proof.
  revert ms. induction chs as [|c chs IH]; intros ms; [done|].
  simpl. by rewrite IH, length_insert.
Qed.

Lemma fill_mutes_boolean v ms chs :
  v = 0 ∨ v = 1 → boolean_vector ms → boolean_vector (fill_mutes v ms chs).
Proof.
  intros Hv. revert ms. induction chs as [|c chs IH]; intros ms Hms; [done|].
  simpl. apply IH. unfold boolean_vector in *.
  destruct (decide (Z.to_nat c < length ms)%nat) as [Hlt|Hge].
  - by apply Forall_insert.
  - by rewrite list_insert_ge by lia.
Qed.

Lemma fill_mutes_at v ms chs ch :
  0 <= ch → Forall (fun c => 0 <= c) chs → (Z.to_nat ch < length ms)%nat →
  mute_state_at (fill_mutes v ms chs) ch
  = if decide (ch ∈ chs) then v else mute_state_at ms ch.
Proof.
  intros Hch. revert ms. induction chs as [|c chs IH]; intros ms Hpos Hlen.
  - done.
  - apply Forall_cons in Hpos as [Hc Hpos].
    change (fill_mutes v ms (c :: chs)) with (fill_mutes v (<[Z.to_nat c := v]> ms) chs).
    rewrite IH by (done || by rewrite length_insert).
    destruct (decide (ch ∈ chs)) as [Hin|Hnin].
    + rewrite decide_True; [done|]. by apply elem_of_cons; right.
    + destruct (decide (c = ch)) as [->|Hne].
      * rewrite decide_True by (by apply elem_of_cons; left).
        by apply mute_state_at_insert.
      * rewrite decide_False.
        2:{ intros Hin. apply elem_of_cons in Hin as [?|?]; congruence. }
        unfold mute_state_at. rewrite list_lookup_insert_ne; [done|]. lia.
Qed.

Lemma set_all_channels_spec v vol a :
  let a' := set_all_channels v vol a in
  a' = set_modext (modext a') (set_mute_states (mute_states a') a)
  ∧ mute_states a' = fill_mutes v (mute_states a) (seqZ 0 (num_channels a))
  ∧ (∀ ch, channel_volume (modext a') !! ch
           = if decide (ch ∈ seqZ 0 (num_channels a)) then Some vol
             else channel_volume (modext a) !! ch)
  ∧ order_pattern (modext a') = order_pattern (modext a)
  ∧ pattern_num_rows (modext a') = pattern_num_rows (modext a)
  ∧ num_orders (modext a') = num_orders (modext a).
Proof.
  unfold set_all_channels. generalize (seqZ 0 (num_channels a)). intros chs.
  revert a. induction chs as [|c chs IH]; intros a.
  - simpl. split_and!; try done. by destruct a.
  - simpl foldl.
    destruct (IH (set_modext (set_channel_volume (modext a) c vol)
                    (set_mute_states (<[Z.to_nat c := v]> (mute_states a)) a)))
      as (Hframe & Hms & Hvol & Hop & Hpr & Hno).
    set (a' := foldl _ _ chs) in *.
    split_and!.
    + rewrite Hframe at 1. done.
    + rewrite Hms. done.
    + intros ch. rewrite Hvol. simpl.
      destruct (decide (ch ∈ chs)) as [Hin|Hnin].
      * rewrite decide_True; [done|]. by apply elem_of_cons; right.
      * destruct (decide (c = ch)) as [->|Hne].
        -- rewrite lookup_insert_eq.
           rewrite decide_True; [done|]. by apply elem_of_cons; left.
        -- rewrite lookup_insert_ne by done. rewrite decide_False; [done|].
           intros Hin. apply elem_of_cons in Hin as [?|?]; congruence.
    + by rewrite Hop.
    + by rewrite Hpr.
    + by rewrite Hno.
Qed.

Lemma seqZ_nonneg n : Forall (fun c => 0 <= c) (seqZ 0 n).
Proof. apply Forall_forall. intros c Hc%elem_of_seqZ. lia. Qed.

Lemma key_effect_invariant m0 channels ok a a' :
  session_invariant m0 channels ok a → key_effect a a' →
  session_invariant m0 channels ok a'.
Proof.
  intros (Hwf & Hq & Hok & Hn & Hlen & Hbool & Hop & Hpr & Hno & Hvol & Hloop) Hk.
  unfold session_invariant, loop_bound in *.
  destruct Hk as [| | |t o r _| | |ch Hi Hch|v Hi Hv|f].
  - done.
  - done.
  - rewrite reapply_frame. engine_simpl. split_and!; try done.
    intros H0. rewrite <-Hn. apply (reapplied_agree (set_modext _ a)).
    simpl. rewrite Hn. by apply Hvol.
  - pose proof (enqueue_wf a {| type := t; order := o; row := r |} Hwf) as Hwf'.
    change (enqueue a {| type := t; order := o; row := r |})
      with (enqueue_command a t o r) in Hwf'.
    split; [done|]. clear Hwf'.
    unfold enqueue_command. case_decide; simpl; done.
  - simpl. split_and!; try done.
  - simpl. split_and!; try done. intros [?|?]; [done|]. apply Hloop. by right.
  - simpl. split_and!; try done.
    + by rewrite length_insert.
    + unfold boolean_vector in *.
      destruct (decide (Z.to_nat ch < length (mute_states a))%nat).
      * apply Forall_insert; [done|]. apply lnot_boolean.
      * by rewrite list_insert_ge by lia.
    + intros H0 c w Hc. specialize (Hvol H0).
      cbn [channel_volume set_channel_volume].
      destruct (decide (ch = c)) as [->|Hne].
      * rewrite lookup_insert_eq. by intros [= <-].
      * rewrite lookup_insert_ne by done. intros Hw.
        rewrite (Hvol c w Hc Hw). unfold mute_state_at.
        rewrite list_lookup_insert_ne; [done|]. lia.
  - destruct (set_all_channels_spec v (gain_of v) a)
      as (Hframe & Hms & Hlook & Hop' & Hpr' & Hno').
    set (b := set_all_channels v (gain_of v) a) in *.
    rewrite Hframe. simpl. split_and!; try done.
    + by rewrite Hms, fill_mutes_length.
    + rewrite Hms. by apply fill_mutes_boolean.
    + by rewrite Hop'.
    + by rewrite Hpr'.
    + by rewrite Hno'.
    + intros H0 c w Hc. specialize (Hvol H0). rewrite Hlook, Hms.
      rewrite fill_mutes_at; [|lia|apply seqZ_nonneg|lia].
      case_decide; [by intros [= <-]|]. by apply Hvol.
    + by rewrite Hop'.
  - done.
Qed.

Ltac agree_steps :=
  repeat first
    [ assumption
    | match goal with
      | |- volumes_agree _ _ (reapplied ?x) => apply (reapplied_agree x); simpl
      | |- volumes_agree _ _ (openmpt_module_set_position_order_row ?m _ _) =>
          apply (volumes_agree_ext _ _ m); [reflexivity|]
      end ].

Lemma transport_invariant m0 channels ok s :
  session_invariant m0 channels ok (ad s) →
  session_invariant m0 channels ok (ad (transport s)).
Proof.
  intros (Hwf & Hq & Hok & Hn & Hlen & Hbool & Hop & Hpr & Hno & Hvol & Hloop).
  unfold session_invariant, loop_bound in *.
  unfold transport, pattern_loop_block, pattern_wrap, pattern_snap_back,
    loop_till_row_block, queued_jump_block.
  unfold_getters.
  walk_tests; engine_simpl; split_tests; split_and!; try done;
    lazymatch goal with
    | |- _ → volumes_agree _ _ _ =>
        let Hs := fresh "Hstart" in
        intros Hs; specialize (Hvol Hs); rewrite <-Hn in *; agree_steps
    | |- _ ∨ _ → _ => intros _; apply Hloop; first [by left|by right]
    | |- _ => idtac
    end.
Qed.

Lemma session_invariant_core m0 channels ok a :
  session_invariant m0 channels ok a
  ↔ session_core m0 channels ok a ∧ has_queued_jump a = 0.
Proof. unfold session_invariant, session_core. tauto. Qed.

Lemma drained_empty a :
  queue_wf a → command_queue_head a = command_queue_tail a → drained a = a.
Proof.
  intros Hwf Heq. unfold drained. rewrite pending_empty by done. simpl.
  by rewrite <-Heq, set_head_id.
Qed.

Lemma drained_step a :
  queue_wf a → command_queue_head a ≠ command_queue_tail a →
  drained (process_one a) = drained a.
Proof.
  intros Hwf Hne. unfold drained at 2. rewrite (pending_uncons a) by done.
  simpl. unfold drained. unfold process_one at 2. rewrite foldl_apply_set_head.
  unfold process_one. simpl.
  destruct (apply_command_queue a (command_at (command_queue a) (command_queue_head a)))
    as (_ & _ & ->).
  by destruct (foldl apply_command _ _).
Qed.

(** Whatever the fuel, a drain that returns returns [drained]. *)
Lemma process_commands_result fuel a d :
  queue_wf a → process_commands fuel a = Some d → d = drained a.
Proof.
  revert a. induction fuel as [|fuel IH]; intros a Hwf; simpl.
  - case_decide; [|done]. intros [= <-]. by rewrite drained_empty.
  - case_decide.
    + intros [= <-]. by rewrite drained_empty.
    + intros Hrun. rewrite <-drained_step by done.
      apply IH; [by apply process_one_wf|done].
Qed.

Lemma apply_command_core m0 channels ok a c :
  session_core m0 channels ok a → session_core m0 channels ok (apply_command a c).
Proof.
  intros (Hwf & Hok & Hn & Hlen & Hbool & Hop & Hpr & Hno & Hvol & Hloop).
  unfold session_core, loop_bound, queue_wf in *.
  destruct (apply_command_queue a c) as (Hq1 & Hq2 & Hq3). rewrite Hq1, Hq2, Hq3.
  split; [done|]. clear Hq1 Hq2 Hq3.
  unfold apply_command. unfold_getters.
  destruct (type c); [done| |].
  - case_decide; simpl; done.
  - engine_simpl. split_and!; try done.
    intros Hstart. specialize (Hvol Hstart). rewrite <-Hn in *. agree_steps.
Qed.

Lemma foldl_apply_core m0 channels ok cmds a :
  session_core m0 channels ok a →
  session_core m0 channels ok (foldl apply_command a cmds).
Proof.
  revert a. induction cmds as [|c cmds IH]; intros a Ha; [done|].
  simpl. by apply IH, apply_command_core.
Qed.

Lemma drained_core m0 channels ok a :
  session_core m0 channels ok a →
  session_core m0 channels ok (drained a)
  ∧ command_queue_head (drained a) = command_queue_tail (drained a).
Proof.
  intros Ha. pose proof (foldl_apply_core m0 channels ok (pending_commands a) a Ha)
    as (Hwf & Hrest).
  pose proof (foldl_apply_tail (pending_commands a) a) as Htail.
  unfold drained. split.
  - unfold session_core, queue_wf, loop_bound in *. simpl.
    destruct Ha as ((_ & Ht & _) & _). rewrite Htail in *.
    destruct Hwf as (_ & _ & Hl).
    destruct Hrest as (? & ? & ? & ? & ? & ? & ? & ? & ?).
    split_and!; try done; lia.
  - simpl. by rewrite Htail.
Qed.

Lemma consume_queued_jump_core m0 channels ok a :
  session_core m0 channels ok a →
  session_invariant m0 channels ok (consume_queued_jump a).
Proof.
  intros Ha. apply session_invariant_core.
  destruct Ha as (Hwf & Hok & Hn & Hlen & Hbool & Hop & Hpr & Hno & Hvol & Hloop).
  unfold session_core, loop_bound, consume_queued_jump in *.
  destruct (decide (has_queued_jump a ≠ 0)) as [Hq|Hq].
  - engine_simpl. split_and!; try done.
    intros Hstart. specialize (Hvol Hstart). rewrite <-Hn in *. agree_steps.
  - split; [done|]. by apply dec_stable.
Qed.

Lemma render_stream_invariant m0 channels ok read len a :
  tame read → session_invariant m0 channels ok a →
  session_invariant m0 channels ok (render_stream read len a).1.
Proof.
  intros Htame Ha. unfold render_stream. case_decide; [done|].
  destruct (read (modext a) (samplerate a * pitch_factor a)%Qc (len `quot` 4))
    as [m count] eqn:Hread.
  destruct (Htame (modext a) (samplerate a * pitch_factor a)%Qc (len `quot` 4))
    as (Hop' & Hpr' & Hno' & Hcv').
  rewrite Hread in *. simpl in *.
  destruct Ha as (Hwf & Hq & Hok & Hn & Hlen & Hbool & Hop & Hpr & Hno & Hvol & Hloop).
  unfold session_invariant, loop_bound in *. simpl.
  split_and!; try done; try congruence.
  - intros Hstart. apply (volumes_agree_ext _ _ (modext a)); [done|]. by apply Hvol.
  - rewrite Hop'. done.
Qed.

Lemma audio_callback_invariant m0 channels ok read fuel len a data fill :
  tame read → session_invariant m0 channels ok a →
  audio_callback read fuel len a = Some (data, fill) →
  session_invariant m0 channels ok data.
Proof.
  intros Htame Ha. unfold audio_callback.
  destruct (process_commands fuel a) as [d|] eqn:Hrun; [|done].
  apply session_invariant_core in Ha as [Hcore _].
  apply process_commands_result in Hrun; [|apply Hcore]. subst d.
  intros [= Hdata]. 
  pose proof (render_stream_invariant m0 channels ok read len
                (consume_queued_jump (drained a)) Htame) as Hr.
  rewrite Hdata in Hr. apply Hr.
  apply consume_queued_jump_core. by apply drained_core.
Qed.

Lemma boot_invariant m channels ok :
  session_invariant m channels ok (ad (boot m channels ok)).
Proof.
  unfold session_invariant, boot, queue_wf, loop_bound, boolean_vector, MAX_COMMANDS.
  simpl. split_and!; try done.
  - by rewrite length_replicate.
  - apply Forall_replicate. by left.
  - intros [?|?]; done.
Qed.

Lemma reachable_invariant m channels ok s :
  reachable (boot m channels ok) s → session_invariant m channels ok (ad s).
Proof.
  induction 1 as [|s k _ IH|s read fuel len data fill _ IH Htame Hrun].
  - apply boot_invariant.
  - unfold main_iteration. apply transport_invariant.
    case_decide; [|done].
    eapply key_effect_invariant; [exact IH|apply handle_key_effect].
  - simpl. by eapply audio_callback_invariant.
Qed.

Lemma silent_renderer_tame : tame silent_renderer.
Proof. done. Qed.

Lemma demo_session_reachable : reachable (boot demo_engine 3 1) demo_session.
Proof. apply reachable_iteration, reachable_iteration, reachable_start. Qed.

(** ** X1: the queue stays well formed and every callback returns *)

(** X1: in every state of a session the queue indices are inside the ring
    of eight cells, so a render callback never loops for more than seven
    turns: with fuel for seven it returns, whatever the renderer, and it
    returns with the queue empty. *)
Theorem session_queue_well_formed m channels ok s :
  reachable (boot m channels ok) s →
  queue_wf (ad s)
  ∧ ∀ read len, ∃ data fill,
      audio_callback read 7 len (ad s) = Some (data, fill)
      ∧ command_queue_head data = command_queue_tail data.
Proof.
  intros Hreach.
  pose proof (reachable_invariant m channels ok s Hreach) as Hinv.
  apply session_invariant_core in Hinv as [Hcore _].
  pose proof Hcore as (Hwf & _). split; [done|].
  intros read len. unfold audio_callback.
  rewrite process_commands_drained; [|done|].
  2:{ pose proof (occupancy_wf_le (ad s) Hwf). unfold MAX_COMMANDS in *. lia. }
  destruct (drained_core m channels ok (ad s) Hcore) as (_ & Hempty).
  destruct (render_stream read len (consume_queued_jump (drained (ad s))))
    as [data fill] eqn:Hrender.
  exists data, fill. split; [done|].
  assert (command_queue_head (consume_queued_jump (drained (ad s)))
          = command_queue_tail (consume_queued_jump (drained (ad s)))) as Hc.
  { unfold consume_queued_jump. case_decide; [|done]. by engine_simpl. }
  unfold render_stream in Hrender. case_decide.
  - by injection Hrender as <- _.
  - destruct (read _ _ _). by injection Hrender as <- _.
Qed.

Lemma session_queue_well_formed_witness : queue_wf (ad demo_session).
Proof.
  apply (session_queue_well_formed demo_engine 3 1 demo_session demo_session_reachable).
Defined.

(** ** X2: the control loop never sees the one-shot flag *)

(** X2: in every state of a session [has_queued_jump] is 0: the flag is
    raised and consumed inside one callback.  So the jump block of the
    control loop (lines 408-413) is never taken, and in song mode, no loop
    till row being in force, a turn of the state machine changes nothing. *)
Theorem session_flag_is_down m channels ok s :
  reachable (boot m channels ok) s →
  has_queued_jump (ad s) = 0
  ∧ (pattern_mode (ad s) = 0 → is_looping_till (ad s) = 0 → transport s = s).
Proof.
  intros Hreach.
  pose proof (reachable_invariant m channels ok s Hreach) as (_ & Hq & _).
  split; [done|]. intros Hp Hl. unfold transport.
  rewrite (bool_decide_eq_false_2 (pattern_mode (ad s) ≠ 0)) by (intros ?; done).
  cbn [andb]. rewrite decide_False by (intros ?; done).
  by rewrite decide_False by (intros ?; done).
Qed.

Lemma session_flag_is_down_witness : has_queued_jump (ad demo_session) = 0.
Proof.
  apply (session_flag_is_down demo_engine 3 1 demo_session demo_session_reachable).
Defined.

(** ** X3: the mute vector keeps its shape *)

(** X3: in every state of a session the channel count and the presence of
    the interactive extension are those of the start, the mute vector has
    one entry per channel, and every entry is 0 or 1. *)
Theorem session_mute_vector_shape m channels ok s :
  reachable (boot m channels ok) s →
  num_channels (ad s) = channels
  ∧ interactive_ok (ad s) = ok
  ∧ length (mute_states (ad s)) = Z.to_nat channels
  ∧ boolean_vector (mute_states (ad s)).
Proof.
  intros Hreach.
  by pose proof (reachable_invariant m channels ok s Hreach)
    as (_ & _ & ? & ? & ? & ? & _).
Qed.

Lemma session_mute_vector_shape_witness : length (mute_states (ad demo_session)) = 3%nat.
Proof.
  apply (session_mute_vector_shape demo_engine 3 1 demo_session demo_session_reachable).
Defined.

(** ** X4: the engine never contradicts the mute vector *)

(** X4: if at the start no channel of the module has a volume other than
    1.0 in the engine, and the renderers leave the volumes alone, then in
    every state of a session any volume the engine holds for a channel is
    0.0 when the mute vector has the channel muted and 1.0 when it has
    not. *)
Theorem session_volumes_follow_mutes m channels ok s :
  reachable (boot m channels ok) s →
  (∀ ch v, 0 <= ch < channels → channel_volume m !! ch = Some v → v = 1%Qc) →
  ∀ ch v, 0 <= ch < channels →
    channel_volume (modext (ad s)) !! ch = Some v →
    v = if decide (mute_state_at (mute_states (ad s)) ch ≠ 0) then 0%Qc else 1%Qc.
Proof.
  intros Hreach Hstart.
  pose proof (reachable_invariant m channels ok s Hreach)
    as (_ & _ & _ & _ & _ & _ & _ & _ & _ & Hvol & _).
  apply Hvol. intros ch v Hch Hv. rewrite (Hstart ch v Hch Hv).
  unfold mute_state_at, gain_of.
  destruct (replicate (Z.to_nat channels) 0 !! Z.to_nat ch) as [x|] eqn:Hx; [|done].
  apply lookup_replicate in Hx as [-> _]. done.
Qed.

Lemma session_volumes_follow_mutes_witness :
  ∀ ch v, 0 <= ch < 3 →
    channel_volume (modext (ad demo_session)) !! ch = Some v →
    v = if decide (mute_state_at (mute_states (ad demo_session)) ch ≠ 0)
        then 0%Qc else 1%Qc.
Proof.
  apply (session_volumes_follow_mutes demo_engine 3 1 demo_session
           demo_session_reachable).
  intros ch v _ Hv. by vm_compute in Hv.
Defined.

(** ** X5: the looped pattern is the pattern of the loop order *)

(** X5: in every state of a session the tables of the module are those of
    the start and, whenever pattern mode or loop till row is in force,
    [loop_pattern] is the pattern the order table gives for
    [loop_order]. *)
Theorem session_loop_pattern_bound m channels ok s :
  reachable (boot m channels ok) s →
  order_pattern (modext (ad s)) = order_pattern m
  ∧ pattern_num_rows (modext (ad s)) = pattern_num_rows m
  ∧ num_orders (modext (ad s)) = num_orders m
  ∧ (pattern_mode (ad s) ≠ 0 ∨ is_looping_till (ad s) ≠ 0 →
     loop_pattern (ad s) = order_pattern m (loop_order (ad s))).
Proof.
  intros Hreach.
  pose proof (reachable_invariant m channels ok s Hreach)
    as (_ & _ & _ & _ & _ & _ & Hop & Hpr & Hno & _ & Hloop).
  split_and!; try done. intros Hmode. rewrite <-Hop. by apply Hloop.
Qed.

Lemma session_loop_pattern_bound_witness :
  loop_pattern (ad demo_session) = order_pattern demo_engine (loop_order (ad demo_session)).
Proof.
  apply (session_loop_pattern_bound demo_engine 3 1 demo_session demo_session_reachable).
  left. by vm_compute.
Defined.

(** ** X6: the order keys queue orders of the module *)

Lemma key_effect_targets a a' :
  key_effect a a' → queue_wf a →
  0 <= current_order (modext a) < num_orders (modext a) →
  targets_in_range a → targets_in_range a'.
Proof.
  intros Hk Hwf Hcur Hin. unfold targets_in_range in *.
  destruct Hk as [| | |t o r Ho| | |ch Hi Hch|v Hi Hv|f]; try done.
  - rewrite reapply_frame. unfold pending_commands, occupancy in *. by engine_simpl.
  - rewrite enqueue_command_modext.
    change (enqueue_command a t o r) with (enqueue a {| type := t; order := o; row := r |}).
    pose proof (occupancy_wf_le a Hwf) as Hle.
    destruct (decide (occupancy a < MAX_COMMANDS - 1)) as [Hroom|Hfull].
    + rewrite enqueue_pending by done. apply Forall_app. split; [done|].
      apply Forall_singleton. simpl. by apply Ho.
    + rewrite enqueue_full by (done || lia). done.
  - destruct (set_all_channels_spec v (gain_of v) a) as (Hframe & _ & _ & _ & _ & Hno).
    set (b := set_all_channels v (gain_of v) a) in *.
    rewrite Hno. rewrite Hframe. done.
Qed.

(** X6: a key never queues an order the module does not have: if the
    cursor is on an order of the module and every waiting command names
    one, the same holds after any key.  At the ends of the order list [n]
    on the last order does nothing at all, not even a message, and [p] on
    the first order queues order 0. *)
Theorem keys_queue_orders_of_the_module k s :
  queue_wf (ad s) →
  0 <= current_order (modext (ad s)) < num_orders (modext (ad s)) →
  targets_in_range (ad s) →
  targets_in_range (ad (handle_key k s))
  ∧ (k = chr "n" ∨ k = chr "N" →
     current_order (modext (ad s)) + 1 = num_orders (modext (ad s)) →
     handle_key k s = s)
  ∧ (k = chr "p" ∨ k = chr "P" →
     current_order (modext (ad s)) = 0 →
     handle_key k s
     = printf (MsgPreviousOrderQueued 0)
         (set_ad (enqueue_command (ad s) PLAYBACK_QUEUE_ORDER 0 0) s)).
Proof.
  intros Hwf Hcur Hin. split_and!.
  - eapply key_effect_targets; [apply handle_key_effect|done..].
  - intros Hk Hlast. unfold handle_key. chr_consts.
    destruct Hk as [-> | ->]; (refute_keys 110 || refute_keys 78);
      rewrite ?(bool_decide_eq_true_2 (110 = 110)), ?(bool_decide_eq_true_2 (78 = 78)) by done;
      cbn [orb]; unfold_getters; rewrite decide_False by lia; done.
  - intros Hk Hfirst. unfold handle_key. chr_consts.
    destruct Hk as [-> | ->]; (refute_keys 112 || refute_keys 80);
      rewrite ?(bool_decide_eq_true_2 (112 = 112)), ?(bool_decide_eq_true_2 (80 = 80)) by done;
      cbn [orb]; unfold_getters; cbv zeta; rewrite decide_False by lia; done.
Qed.

Lemma keys_queue_orders_of_the_module_witness :
  targets_in_range (ad (handle_key (chr "n") demo_main)).
Proof.
  apply (keys_queue_orders_of_the_module (chr "n") demo_main).
  - apply demo_ad_wf.
  - vm_compute. by split.
  - vm_compute. constructor.
Defined.

(** ** X7: a channel key pressed twice *)

Lemma toggle_channel_spec ch s :
  0 <= ch < num_channels (ad s) →
  (Z.to_nat ch < length (mute_states (ad s)))%nat →
  let x := mute_state_at (mute_states (ad s)) ch in
  let s' := toggle_channel ch s in
  mute_states (ad s') = <[Z.to_nat ch := lnot x]> (mute_states (ad s))
  ∧ mute_state_at (mute_states (ad s')) ch = lnot x
  ∧ modext (ad s') = set_channel_volume (modext (ad s)) ch (gain_of (lnot x))
  ∧ stdout s' = stdout s ++ [MsgChannel (ch + 1) (lnot x)]
  ∧ interactive_ok (ad s') = interactive_ok (ad s)
  ∧ num_channels (ad s') = num_channels (ad s)
  ∧ prev_row s' = prev_row s ∧ running s' = running s.
Proof.
  intros Hch Hlen x s'. subst x s'. unfold toggle_channel.
  rewrite decide_True by lia. cbv zeta. simpl.
  assert (mute_state_at
            (<[Z.to_nat ch := lnot (mute_state_at (mute_states (ad s)) ch)]>
               (mute_states (ad s))) ch
          = lnot (mute_state_at (mute_states (ad s)) ch)) as Hat.
  { unfold mute_state_at at 1. by rewrite list_lookup_insert_eq by done. }
  rewrite !Hat. done.
Qed.

(** X7: with the extension present, a channel key pressed twice on a
    channel of the module puts the mute vector back as it was, when the
    entry was 0 or 1; the engine is told twice, the second time the gain
    of the restored entry; two lines are printed; the cursor is not
    touched. *)
Theorem channel_key_twice_restores k s :
  chr "1" <= k <= chr "9" →
  interactive_ok (ad s) ≠ 0 →
  k - chr "1" < num_channels (ad s) →
  (Z.to_nat (k - chr "1") < length (mute_states (ad s)))%nat →
  mute_state_at (mute_states (ad s)) (k - chr "1") = 0
  ∨ mute_state_at (mute_states (ad s)) (k - chr "1") = 1 →
  let ch := k - chr "1" in
  let x := mute_state_at (mute_states (ad s)) ch in
  let s2 := handle_key k (handle_key k s) in
  mute_states (ad s2) = mute_states (ad s)
  ∧ call_log (modext (ad s2))
    = call_log (modext (ad s))
      ++ [CallSetChannelVolume ch (gain_of (lnot x)); CallSetChannelVolume ch (gain_of x)]
  ∧ channel_volume (modext (ad s2)) !! ch = Some (gain_of x)
  ∧ cursor_kept (modext (ad s)) (modext (ad s2))
  ∧ stdout s2 = stdout s ++ [MsgChannel (ch + 1) (lnot x); MsgChannel (ch + 1) x].
Proof.
  intros Hk Hok Hch Hlen Hbool ch x s2. subst s2.
  assert (0 <= ch < num_channels (ad s)) as Hrange.
  { subst ch. revert Hk Hch. chr_consts. lia. }
  rewrite (handle_key_digit k s) by done. rewrite decide_True by done.
  destruct (toggle_channel_spec ch s Hrange Hlen)
    as (Hms1 & Hat1 & Hm1 & Hout1 & Hok1 & Hn1 & _).
  fold ch. set (s1 := toggle_channel ch s) in *.
  rewrite (handle_key_digit k s1) by done. rewrite decide_True by (by rewrite Hok1).
  fold ch.
  destruct (toggle_channel_spec ch s1) as (Hms2 & Hat2 & Hm2 & Hout2 & _).
  { by rewrite Hn1. }
  { by rewrite Hms1, length_insert. }
  set (s2 := toggle_channel ch s1) in *.
  fold x in Hms1, Hat1, Hm1, Hout1.
  assert (lnot (lnot x) = x) as Hback.
  { unfold lnot. destruct Hbool as [Hx|Hx]; fold ch x in Hx; rewrite Hx; done. }
  rewrite Hat1, Hback in Hms2, Hm2, Hout2.
  split_and!.
  - rewrite Hms2, Hms1, list_insert_insert_eq. apply list_insert_id.
    subst x. unfold mute_state_at.
    destruct (mute_states (ad s) !! Z.to_nat ch) as [y|] eqn:Hy; [done|].
    apply lookup_ge_None in Hy. lia.
  - rewrite Hm2, Hm1. simpl. by rewrite <-app_assoc.
  - rewrite Hm2. simpl. by rewrite lookup_insert_eq.
  - rewrite Hm2, Hm1. split; [done|]. simpl.
    by rewrite !position_calls_volume.
  - rewrite Hout2, Hout1. by rewrite <-app_assoc.
Qed.

Lemma channel_key_twice_restores_witness :
  mute_states (ad (handle_key (chr "2") (handle_key (chr "2") demo_main)))
  = mute_states (ad demo_main).
Proof.
  apply (channel_key_twice_restores (chr "2") demo_main).
  - chr_consts. lia.
  - done.
  - by vm_compute.
  - vm_compute. lia.
  - left. by vm_compute.
Defined.

(** ** X8: the keys that mute and unmute every channel *)

Lemma handle_key_mute_all k s :
  k = chr "m" ∨ k = chr "M" → interactive_ok (ad s) ≠ 0 →
  handle_key k s = printf MsgAllChannelsMuted (set_ad (set_all_channels 1 0%Qc (ad s)) s).
Proof.
  intros Hk Hok. unfold handle_key. chr_consts.
  rewrite (bool_decide_eq_true_2 (interactive_ok (ad s) ≠ 0)) by done.
  destruct Hk as [-> | ->]; done.
Qed.

Lemma handle_key_unmute_all k s :
  k = chr "u" ∨ k = chr "U" → interactive_ok (ad s) ≠ 0 →
  handle_key k s = printf MsgAllChannelsUnmuted (set_ad (set_all_channels 0 1%Qc (ad s)) s).
Proof.
  intros Hk Hok. unfold handle_key. chr_consts.
  rewrite (bool_decide_eq_true_2 (interactive_ok (ad s) ≠ 0)) by done.
  destruct Hk as [-> | ->]; done.
Qed.

Lemma set_all_channels_log v vol a :
  call_log (modext (set_all_channels v vol a))
  = call_log (modext a) ++ volume_sweep (num_channels a) vol.
Proof.
  unfold set_all_channels, volume_sweep. generalize (seqZ 0 (num_channels a)).
  intros chs. revert a. induction chs as [|c chs IH]; intros a.
  - simpl. by rewrite app_nil_r.
  - simpl foldl. rewrite IH. simpl. by rewrite <-app_assoc.
Qed.

Lemma set_all_channels_sweep v a :
  length (mute_states a) = Z.to_nat (num_channels a) →
  let a' := set_all_channels v (gain_of v) a in
  (∀ ch, 0 <= ch < num_channels a → mute_state_at (mute_states a') ch = v)
  ∧ length (mute_states a') = length (mute_states a)
  ∧ (∀ ch, 0 <= ch < num_channels a →
       channel_volume (modext a') !! ch = Some (gain_of v))
  ∧ (∀ ch, ¬ 0 <= ch < num_channels a →
       channel_volume (modext a') !! ch = channel_volume (modext a) !! ch)
  ∧ call_log (modext a')
    = call_log (modext a) ++ volume_sweep (num_channels a) (gain_of v)
  ∧ cursor_kept (modext a) (modext a')
  ∧ num_channels a' = num_channels a.
Proof.
  intros Hlen a'. subst a'.
  destruct (set_all_channels_spec v (gain_of v) a) as (Hframe & Hms & Hlook & _).
  set (b := set_all_channels v (gain_of v) a) in *.
  split_and!.
  - intros ch Hch. rewrite Hms.
    rewrite fill_mutes_at; [|lia|apply seqZ_nonneg|lia].
    rewrite decide_True; [done|]. apply elem_of_seqZ. lia.
  - by rewrite Hms, fill_mutes_length.
  - intros ch Hch. rewrite Hlook. rewrite decide_True; [done|]. apply elem_of_seqZ. lia.
  - intros ch Hch. rewrite Hlook. rewrite decide_False; [done|].
    intros Hin%elem_of_seqZ. lia.
  - apply set_all_channels_log.
  - apply set_all_channels_cursor.
  - by rewrite Hframe.
Qed.

(** X8: with the extension present and one mute entry per channel, [m]
    leaves every channel muted and [u] every channel unmuted, in the mute
    vector and in the engine alike: the engine is told once per channel, in
    channel order, volumes of other channels stay, the cursor is not
    touched, and one line is printed. *)
Theorem all_channels_keys k s v :
  interactive_ok (ad s) ≠ 0 →
  length (mute_states (ad s)) = Z.to_nat (num_channels (ad s)) →
  (v = 1 ∧ (k = chr "m" ∨ k = chr "M")) ∨ (v = 0 ∧ (k = chr "u" ∨ k = chr "U")) →
  let n := num_channels (ad s) in
  let s' := handle_key k s in
  (∀ ch, 0 <= ch < n → mute_state_at (mute_states (ad s')) ch = v)
  ∧ length (mute_states (ad s')) = length (mute_states (ad s))
  ∧ (∀ ch, 0 <= ch < n →
       channel_volume (modext (ad s')) !! ch = Some (if decide (v = 1) then 0%Qc else 1%Qc))
  ∧ (∀ ch, ¬ 0 <= ch < n →
       channel_volume (modext (ad s')) !! ch = channel_volume (modext (ad s)) !! ch)
  ∧ call_log (modext (ad s'))
    = call_log (modext (ad s))
      ++ volume_sweep n (if decide (v = 1) then 0%Qc else 1%Qc)
  ∧ cursor_kept (modext (ad s)) (modext (ad s'))
  ∧ mutes_applied (ad s')
  ∧ stdout s'
    = stdout s ++ [if decide (v = 1) then MsgAllChannelsMuted else MsgAllChannelsUnmuted].
Proof.
  intros Hok Hlen Hk n s'. subst n s'.
  destruct (set_all_channels_sweep v (ad s) Hlen)
    as (Hat & Hl & Hvol & Hother & Hlog & Hcur & Hn).
  assert (ad (handle_key k s) = set_all_channels v (gain_of v) (ad s)
          ∧ stdout (handle_key k s)
            = stdout s ++ [if decide (v = 1) then MsgAllChannelsMuted
                           else MsgAllChannelsUnmuted]
          ∧ gain_of v = if decide (v = 1) then 0%Qc else 1%Qc) as (-> & -> & <-).
  { destruct Hk as [[-> Hk]|[-> Hk]].
    - by rewrite handle_key_mute_all.
    - by rewrite handle_key_unmute_all. }
  split_and!; try done.
  intros ch Hch. rewrite Hn in Hch. by rewrite Hvol, Hat.
Qed.

Lemma all_channels_keys_witness :
  mutes_applied (ad (handle_key (chr "m") demo_main)).
Proof.
  apply (all_channels_keys (chr "m") demo_main 1).
  - done.
  - reflexivity.
  - left. split; [done|by left].
Defined.

(** ** X9: settings are written by keys only *)

Lemma settings_kept_refl a : settings_kept a a.
Proof. done. Qed.

Lemma settings_kept_trans a b c :
  settings_kept a b → settings_kept b c → settings_kept a c.
Proof.
  intros (? & ? & ? & ? & ? & ?) (? & ? & ? & ? & ? & ?).
  unfold settings_kept. split_and!; congruence.
Qed.

Lemma transport_settings s : settings_kept (ad s) (ad (transport s)).
Proof.
  unfold settings_kept, transport, pattern_loop_block, pattern_wrap, pattern_snap_back,
    loop_till_row_block, queued_jump_block.
  walk_tests; engine_simpl; done.
Qed.

Lemma apply_command_settings a c : settings_kept a (apply_command a c).
Proof.
  unfold settings_kept, apply_command. destruct (type c); [done| |].
  - case_decide; done.
  - by engine_simpl.
Qed.

Lemma foldl_apply_settings cmds a : settings_kept a (foldl apply_command a cmds).
Proof.
  revert a. induction cmds as [|c cmds IH]; intros a; [done|].
  simpl. eapply settings_kept_trans; [apply apply_command_settings|apply IH].
Qed.

Lemma drained_settings a : settings_kept a (drained a).
Proof.
  pose proof (foldl_apply_settings (pending_commands a) a) as H.
  unfold settings_kept, drained in *. done.
Qed.

Lemma consume_queued_jump_settings a : settings_kept a (consume_queued_jump a).
Proof. unfold settings_kept, consume_queued_jump. case_decide; [by engine_simpl|done]. Qed.

Lemma render_stream_settings read len a : settings_kept a (render_stream read len a).1.
Proof.
  unfold settings_kept, render_stream. case_decide; [done|].
  by destruct (read _ _ _).
Qed.

Lemma audio_callback_settings read fuel len a data fill :
  queue_wf a → audio_callback read fuel len a = Some (data, fill) → settings_kept a data.
Proof.
  intros Hwf. unfold audio_callback.
  destruct (process_commands fuel a) as [d|] eqn:Hrun; [|done].
  apply process_commands_result in Hrun; [|done]. subst d.
  intros [= Hdata].
  pose proof (render_stream_settings read len (consume_queued_jump (drained a))) as Hr.
  rewrite Hdata in Hr.
  eapply settings_kept_trans; [|eapply settings_kept_trans; [|exact Hr]].
  - apply drained_settings.
  - apply consume_queued_jump_settings.
Qed.

(** X9: the presence of the extension, the channel count, the mute
    vector, the pause flag, the pitch factor and the sample rate are
    written by keys only: a turn of the state machine keeps them, and so
    does a render callback, which with fuel for seven commands returns
    whatever the queue holds. *)
Theorem settings_are_written_by_keys_only a :
  queue_wf a →
  (∀ s, ad s = a → settings_kept a (ad (transport s)))
  ∧ (∀ read len, ∃ data fill,
       audio_callback read 7 len a = Some (data, fill) ∧ settings_kept a data).
Proof.
  intros Hwf. split.
  - intros s <-. apply transport_settings.
  - intros read len. unfold audio_callback.
    rewrite process_commands_drained; [|done|].
    2:{ pose proof (occupancy_wf_le a Hwf). unfold MAX_COMMANDS in *. lia. }
    destruct (render_stream read len (consume_queued_jump (drained a)))
      as [data fill] eqn:Hrender.
    exists data, fill. split; [done|].
    apply (audio_callback_settings read 7 len a data fill Hwf).
    unfold audio_callback. rewrite process_commands_drained; [by rewrite Hrender|done|].
    pose proof (occupancy_wf_le a Hwf). unfold MAX_COMMANDS in *. lia.
Qed.

Lemma settings_are_written_by_keys_only_witness :
  settings_kept demo_muted (ad (transport (initial_main_state demo_muted))).
Proof.
  destruct (settings_are_written_by_keys_only demo_muted) as [Htick _].
  - unfold queue_wf, MAX_COMMANDS. by vm_compute.
  - by apply Htick.
Defined.

(** ** X10: a module without the interactive extension *)

Lemma reapplied_off x : interactive_ok x = 0 → reapplied x = modext x.
Proof.
  intros Hoff. unfold reapplied, reapply_mutes_if_ok.
  by rewrite decide_False by (intros ?; done).
Qed.

Lemma key_effect_off a a' :
  key_effect a a' → interactive_ok a = 0 →
  interactive_ok a' = 0 ∧ mute_states a' = mute_states a
  ∧ channel_volume (modext a') = channel_volume (modext a).
Proof.
  intros Hk Hoff.
  destruct Hk as [| | |t o r _| | |ch Hi Hch|v Hi Hv|f]; try done.
  - rewrite reapply_frame. simpl. by rewrite reapplied_off.
  - unfold enqueue_command. by case_decide.
Qed.

Lemma transport_off s :
  interactive_ok (ad s) = 0 →
  channel_volume (modext (ad (transport s))) = channel_volume (modext (ad s)).
Proof.
  intros Hoff.
  unfold transport, pattern_loop_block, pattern_wrap, pattern_snap_back,
    loop_till_row_block, queued_jump_block.
  walk_tests; engine_simpl; repeat (rewrite reapplied_off by done; simpl); done.
Qed.

Lemma foldl_apply_off cmds a :
  interactive_ok a = 0 →
  channel_volume (modext (foldl apply_command a cmds)) = channel_volume (modext a).
Proof.
  revert a. induction cmds as [|c cmds IH]; intros a Hoff; [done|].
  simpl. destruct (apply_command_settings a c) as (Hok & _).
  rewrite IH by congruence.
  unfold apply_command. destruct (type c); [done| |].
  - by case_decide.
  - engine_simpl. by rewrite reapplied_off.
Qed.

Lemma audio_callback_off read fuel len a data fill :
  queue_wf a → tame read → interactive_ok a = 0 →
  audio_callback read fuel len a = Some (data, fill) →
  channel_volume (modext data) = channel_volume (modext a).
Proof.
  intros Hwf Htame Hoff. unfold audio_callback.
  destruct (process_commands fuel a) as [d|] eqn:Hrun; [|done].
  apply process_commands_result in Hrun; [|done]. subst d.
  intros [= Hdata].
  assert (channel_volume (modext (drained a)) = channel_volume (modext a)) as Hd.
  { unfold drained. simpl. by apply foldl_apply_off. }
  assert (interactive_ok (drained a) = 0) as Hdoff.
  { destruct (drained_settings a) as (Hok & _). congruence. }
  assert (channel_volume (modext (consume_queued_jump (drained a)))
          = channel_volume (modext a)) as Hc.
  { unfold consume_queued_jump. case_decide; [|done].
    engine_simpl. by rewrite reapplied_off. }
  rewrite <-Hc. clear Hc Hd.
  unfold render_stream in Hdata. case_decide.
  - by injection Hdata as <- _.
  - destruct (Htame (modext (consume_queued_jump (drained a)))
                (samplerate (consume_queued_jump (drained a))
                 * pitch_factor (consume_queued_jump (drained a)))%Qc (len `quot` 4))
      as (_ & _ & _ & Hcv).
    destruct (read _ _ _). by injection Hdata as <- _.
Qed.

Lemma reachable_off m channels s :
  reachable (boot m channels 0) s →
  interactive_ok (ad s) = 0
  ∧ mute_states (ad s) = replicate (Z.to_nat channels) 0
  ∧ channel_volume (modext (ad s)) = channel_volume m.
Proof.
  intros Hreach.
  pose proof (reachable_invariant m channels 0 s Hreach) as (_ & _ & Hok & _).
  split; [done|]. clear Hok.
  induction Hreach as [|s k Hreach IH|s read fuel len data fill Hreach IH Htame Hrun].
  - done.
  - pose proof (reachable_invariant m channels 0 s Hreach) as (_ & _ & Hok & _).
    destruct IH as [Hms Hcv]. unfold main_iteration.
    set (s1 := if decide (k ≠ -1) then handle_key k s else s).
    assert (interactive_ok (ad s1) = 0 ∧ mute_states (ad s1) = mute_states (ad s)
            ∧ channel_volume (modext (ad s1)) = channel_volume (modext (ad s)))
      as (Hok1 & Hms1 & Hcv1).
    { subst s1. case_decide; [|done].
      apply key_effect_off; [apply handle_key_effect|done]. }
    destruct (transport_settings s1) as (_ & _ & Hms2 & _).
    rewrite Hms2, Hms1, transport_off, Hcv1 by done. done.
  - pose proof (reachable_invariant m channels 0 s Hreach) as (Hwf & _ & Hok & _).
    destruct IH as [Hms Hcv]. simpl.
    destruct (audio_callback_settings read fuel len (ad s) data fill Hwf Hrun)
      as (_ & _ & Hms' & _).
    rewrite Hms', (audio_callback_off read fuel len (ad s) data fill) by done.
    done.
Qed.

Lemma handle_key_off k s :
  interactive_ok (ad s) = 0 →
  chr "1" <= k <= chr "9" ∨ k = chr "m" ∨ k = chr "M" ∨ k = chr "u" ∨ k = chr "U" →
  handle_key k s = s.
Proof.
  intros Hoff Hk. unfold handle_key. chr_consts.
  rewrite (bool_decide_eq_false_2 (interactive_ok (ad s) ≠ 0)) by (intros ?; done).
  cbn [andb]. refute_keys k.
  destruct Hk as [Hk|[-> |[-> |[-> | ->]]]]; [refute_keys k|..]; done.
Qed.

(** X10: on a module without the interactive extension no state of a
    session has a channel muted, the engine's channel volumes are those of
    the start, and the channel keys, [m] and [u] do nothing, not even
    print. *)
Theorem session_without_extension m channels s :
  reachable (boot m channels 0) s →
  mute_states (ad s) = replicate (Z.to_nat channels) 0
  ∧ channel_volume (modext (ad s)) = channel_volume m
  ∧ ∀ k, chr "1" <= k <= chr "9" ∨ k = chr "m" ∨ k = chr "M" ∨ k = chr "u" ∨ k = chr "U" →
         handle_key k s = s.
Proof.
  intros Hreach. destruct (reachable_off m channels s Hreach) as (Hoff & Hms & Hcv).
  split_and!; try done. intros k Hk. by apply handle_key_off.
Qed.

Lemma session_without_extension_witness :
  mute_states (ad demo_plain_session) = [0; 0; 0].
Proof.
  apply (session_without_extension demo_engine 3 demo_plain_session).
  apply reachable_iteration, reachable_iteration, reachable_start.
Defined.

(** ** X11: what one callback asks of the engine *)

Lemma drain_jumps_bound l :
  (length (loop_till_jumps l)
   + length (from_option (fun c => [CallSetPosition (order c) (row c)]) []
               (last_queue_order l))
   <= length l)%nat.
Proof.
  assert (length (loop_till_jumps l)
          + length (filter (fun c => is_queue_order c = true) l) <= length l)%nat as Hsum.
  { induction l as [|c l IH]; [done|].
    rewrite filter_cons.
    change (loop_till_jumps (c :: l))
      with ((if is_loop_till c then [CallSetPosition (order c) 0] else [])
            ++ loop_till_jumps l).
    rewrite length_app.
    destruct (is_loop_till c) eqn:Hl, (is_queue_order c) eqn:Hq; simpl; try lia.
    unfold is_loop_till, is_queue_order in *. by destruct (type c). }
  unfold last_queue_order.
  destruct (filter (fun c => is_queue_order c = true) l) as [|c' l'] using rev_ind.
  - simpl in *. lia.
  - rewrite last_snoc. rewrite length_app in Hsum. simpl in *. lia.
Qed.

(** X11: a callback that finds the one-shot flag down hands the renderer
    the state [d] it reaches by first draining the queue and then taking
    the queued jump.  Up to there it has asked the engine for one jump to
    row 0 per LoopTillRow drained, in queue order, and after them, in song
    mode only, for one jump to the target of the last QueueOrder drained:
    never more jumps than commands were waiting, none when the queue was
    empty.  The flag is down again, and a paused player does all of this
    too before it fills the stream with silence. *)
Theorem callback_jumps a :
  queue_wf a → has_queued_jump a = 0 →
  let l := pending_commands a in
  let d := consume_queued_jump (drained a) in
  let calls := loop_till_jumps l ++ queued_jump_of a l in
  (∀ read fuel len, (length l <= fuel)%nat →
     audio_callback read fuel len a = Some (render_stream read len d))
  ∧ jumps_issued (modext a) (modext d) calls
  ∧ (length calls <= length l)%nat
  ∧ (l = [] → d = a)
  ∧ has_queued_jump d = 0
  ∧ command_queue_head d = command_queue_tail d
  ∧ (paused a ≠ 0 → ∀ read len, render_stream read len d = (d, Silence)).
Proof.
  intros Hwf Hflag l d calls.
  destruct (foldl_apply_effect a l) as ((Hpm & _) & Hj & _ & Hpat & Hsong).
  set (b := foldl apply_command a l) in *.
  assert (modext (drained a) = modext b) as Hmod by done.
  assert (has_queued_jump (drained a) = has_queued_jump b) as Hhq by done.
  assert (queued_order (drained a) = queued_order b) as Hqo by done.
  assert (queued_row (drained a) = queued_row b) as Hqr by done.
  assert (jumps_issued (modext a) (modext d) calls ∧ has_queued_jump d = 0
          ∧ command_queue_head d = command_queue_tail d
          ∧ paused d = paused a) as (Hcalls & Hdown & Hempty & Hpaused).
  { assert (command_queue_head (drained a) = command_queue_tail (drained a)) as Hhead.
    { unfold drained. simpl. subst l. by rewrite foldl_apply_tail. }
    assert (paused (drained a) = paused a) as Hp.
    { by destruct (drained_settings a) as (_ & _ & _ & ? & _). }
    subst d calls. unfold queued_jump_of, jumps_issued in *.
    destruct (decide (pattern_mode a = 0)) as [Hsongmode|Hpatmode].
    - destruct (Hsong Hsongmode) as (_ & Ho & Hr & Hq).
      destruct (last_queue_order l) as [c|] eqn:Hlast; cbn [from_option] in *.
      + destruct (consume_queued_jump_spec (drained a)) as (Hframe & _ & Hjump & _).
        { rewrite Hhq, Hq. done. }
        unfold jumps_issued in Hjump.
        rewrite Hjump, Hmod, Hj, Hqo, Hqr, Ho, Hr, <-app_assoc.
        rewrite Hframe. simpl. done.
      + unfold consume_queued_jump.
        rewrite decide_False by (rewrite Hhq, Hq, Hflag; intros ?; done).
        rewrite Hmod, Hj, Hhq, Hq, Hflag, app_nil_r. done.
    - destruct (Hpat Hpatmode) as (_ & _ & _ & Hq).
      unfold consume_queued_jump.
      rewrite decide_False by (rewrite Hhq, Hq, Hflag; intros ?; done).
      rewrite Hmod, Hj, Hhq, Hq, Hflag, app_nil_r. done. }
  split_and!; try done.
  - intros read fuel len Hfuel. unfold audio_callback.
    rewrite process_commands_drained; [done..|].
    subst l. rewrite pending_length in Hfuel. pose proof (occupancy_bounds a). lia.
  - subst calls. rewrite length_app. unfold queued_jump_of.
    pose proof (drain_jumps_bound l) as Hb.
    destruct (decide (pattern_mode a = 0)); simpl; lia.
  - intros Hnil. subst d. 
    assert (drained a = a) as ->.
    { apply drained_empty; [done|].
      pose proof (pending_length a) as Hlen. fold l in Hlen. rewrite Hnil in Hlen.
      simpl in Hlen. pose proof (occupancy_bounds a) as Hb.
      apply occupancy_empty; [done|]. lia. }
    unfold consume_queued_jump. by rewrite decide_False by (rewrite Hflag; intros ?; done).
  - intros Hp read len. unfold render_stream. rewrite decide_True; [done|].
    by rewrite Hpaused.
Qed.

Lemma callback_jumps_witness :
  jumps_issued (modext paused_with_three)
    (modext (consume_queued_jump (drained paused_with_three)))
    [CallSetPosition 2 0; CallSetPosition 3 0].
Proof.
  pose proof (callback_jumps paused_with_three) as H. cbv zeta in H.
  destruct H as (_ & Hjumps & _).
  - apply enqueue_all_wf, demo_ad_wf.
  - reflexivity.
  - exact Hjumps.
Defined.

(** ** X12: modplayer_full.c defers every jump to the callback *)

Lemma full_reapply_calls a :
  position_calls (call_log (Full.modext (Full.reapply_mutes a)))
  = position_calls (call_log (Full.modext a)).
Proof.
  unfold Full.reapply_mutes. case_decide; [done|]. simpl.
  apply (push_volumes_frame (Full.mute_states a)).
Qed.

Lemma full_deferred_spec a :
  let d := Full.deferred_pattern_loop a in
  Full.do_pattern_loop d = 0
  ∧ Full.loop_order d = Full.loop_order a
  ∧ (Full.do_pattern_loop a = 0 → d = a)
  ∧ (Full.do_pattern_loop a ≠ 0 →
     cursor (Full.modext d) = (Full.loop_order a, 0)
     ∧ jumps_issued (Full.modext a) (Full.modext d) [CallSetPosition (Full.loop_order a) 0]).
Proof.
  intros d. subst d. unfold Full.deferred_pattern_loop.
  destruct (decide (Full.do_pattern_loop a ≠ 0)) as [Hup|Hdown].
  - simpl. split_and!; try done.
    + case_decide; [|done]. unfold Full.reapply_mutes. by case_decide.
    + intros _. unfold jumps_issued. case_decide; simpl.
      * rewrite full_reapply_frame, full_reapply_calls. simpl.
        by rewrite position_calls_jump.
      * by rewrite position_calls_jump.
  - apply dec_stable in Hdown. split_and!; done.
Qed.

(** X12: in modplayer_full.c the control loop never calls the engine: a
    turn of its pattern-loop block leaves the shared data as it is or
    raises [do_pattern_loop], and does nothing in song mode.  The jump is
    the callback's: with the flag up it sets the position to (loop order,
    0), once, and lowers the flag; with the flag down it changes nothing;
    so a second callback with no turn of the control loop in between makes
    no jump. *)
Theorem full_jumps_are_deferred a prev :
  let a' := (Full.pattern_loop_block (a, prev)).1 in
  let prev' := (Full.pattern_loop_block (a, prev)).2 in
  let d := Full.deferred_pattern_loop a' in
  Full.modext a' = Full.modext a
  ∧ (a' = a ∨ a' = Full.set_do_pattern_loop 1 a)
  ∧ (Full.pattern_mode a = 0 → a' = a ∧ prev' = prev)
  ∧ (Full.pattern_mode a ≠ 0 →
     (Full.do_pattern_loop a' ≠ 0
      ↔ Full.do_pattern_loop a ≠ 0
        ∨ current_order (Full.modext a) ≠ Full.loop_order a
        ∨ (prev = pattern_num_rows (Full.modext a) (Full.loop_pattern a) - 1
           ∧ current_row (Full.modext a) = 0)))
  ∧ Full.do_pattern_loop d = 0
  ∧ (Full.do_pattern_loop a' ≠ 0 →
     cursor (Full.modext d) = (Full.loop_order a, 0)
     ∧ jumps_issued (Full.modext a) (Full.modext d)
         [CallSetPosition (Full.loop_order a) 0])
  ∧ (Full.do_pattern_loop a' = 0 → d = a)
  ∧ Full.deferred_pattern_loop d = d.
Proof.
  intros a' prev' d.
  assert (Full.modext a' = Full.modext a
          ∧ Full.loop_order a' = Full.loop_order a
          ∧ (a' = a ∨ a' = Full.set_do_pattern_loop 1 a)
          ∧ (Full.pattern_mode a = 0 → a' = a ∧ prev' = prev)
          ∧ (Full.pattern_mode a ≠ 0 →
             (Full.do_pattern_loop a' ≠ 0
              ↔ Full.do_pattern_loop a ≠ 0
                ∨ current_order (Full.modext a) ≠ Full.loop_order a
                ∨ (prev = pattern_num_rows (Full.modext a) (Full.loop_pattern a) - 1
                   ∧ current_row (Full.modext a) = 0))))
    as (Hmod & Hlo & Hcases & Hsong & Hflag).
  { subst a' prev' d. unfold Full.pattern_loop_block. unfold_getters.
    destruct (decide (Full.pattern_mode a ≠ 0)) as [Hp|Hp].
    - destruct (decide (current_order (Full.modext a) = Full.loop_order a)) as [Ho|Ho].
      + destruct (bool_decide (prev = _ - 1)) eqn:Hprev;
          destruct (bool_decide (current_row (Full.modext a) = 0)) eqn:Hrow;
          simpl; split_tests;
          try apply bool_decide_eq_false in Hprev;
          try apply bool_decide_eq_false in Hrow;
          (split_and!; [done|done|by (left + right)|done|]); intros _; simpl; 
          split; intros; try done; tauto.
      + simpl. split_and!; try done; [by right|]. intros _. split; [tauto|done].
    - apply dec_stable in Hp. simpl. split_and!; try done. by left. }
  destruct (full_deferred_spec a') as (Hdown & _ & Hidle & Hjump).
  fold d in Hdown, Hidle, Hjump.
  split_and!; try done.
  - intros Hup. destruct (Hjump Hup) as (Hcur & Hcalls).
    rewrite Hlo, Hmod in *. done.
  - intros Hz. rewrite (Hidle Hz).
    destruct Hcases as [->| ->]; [done|]. simpl in Hz. done.
  - destruct (full_deferred_spec d) as (_ & _ & Hagain & _). by apply Hagain.
Qed.

Lemma full_jumps_are_deferred_witness :
  cursor (Full.modext (Full.deferred_pattern_loop (Full.pattern_loop_block (full_drifted, 3)).1))
  = (0, 0).
Proof.
  pose proof (full_jumps_are_deferred full_drifted 3) as H. cbv zeta in H.
  destruct H as (_ & _ & _ & _ & _ & Hjump & _).
  apply Hjump. by vm_compute.
Defined.

(** ** X13: interactive.c answers every key with one line *)

Lemma interactive_set_all_channels_cursor v vol a :
  cursor_kept (Interactive.modext a)
    (Interactive.modext (Interactive.set_all_channels v vol a)).
Proof.
  unfold Interactive.set_all_channels.
  generalize (seqZ 0 (Interactive.num_channels a)). intros chs.
  revert a. induction chs as [|ch chs IH]; intros a; [done|].
  eapply cursor_kept_trans; [|apply IH].
  simpl. split; [done|]. apply position_calls_volume.
Qed.

(** X13: the key handler of interactive.c prints exactly one line for
    every key, never moves the cursor, stops the loop on ESC, [q] and [Q]
    only, and without the extension changes nothing but the output. *)
Theorem interactive_key_prints_one_line k s :
  let s' := Interactive.handle_key k s in
  (∃ msg, Interactive.stdout s' = Interactive.stdout s ++ [msg])
  ∧ cursor_kept (Interactive.modext (Interactive.ad s))
      (Interactive.modext (Interactive.ad s'))
  ∧ (Interactive.running s' = 0 ∧ (k = 27 ∨ k = chr "q" ∨ k = chr "Q")
     ∨ Interactive.running s' = Interactive.running s
       ∧ ¬ (k = 27 ∨ k = chr "q" ∨ k = chr "Q"))
  ∧ (Interactive.interactive_ok (Interactive.ad s) = 0 →
     Interactive.ad s' = Interactive.ad s).
Proof.
  intros s'. subst s'. unfold Interactive.handle_key, Interactive.toggle_channel.
  walk_tests; simpl; split_tests;
    repeat match goal with
           | H : _ || _ = true |- _ => apply orb_true_iff in H as [H|H]
           | H : _ || _ = false |- _ => apply orb_false_iff in H as [? ?]
           | H : bool_decide _ = true |- _ => apply bool_decide_eq_true in H
           | H : bool_decide _ = false |- _ => apply bool_decide_eq_false in H
           end;
    (split_and!;
     [by eexists
     |first [done | apply interactive_set_all_channels_cursor
            | split; [done|apply position_calls_volume] ]
     |first [left; split; [done|tauto] | right; split; [done|tauto] ]
     |try done ]).
Qed.

(** ** X14: the order keys on a full queue *)

Lemma set_ad_id s : set_ad (ad s) s = s.
Proof. by destruct s. Qed.

Lemma enqueue_command_full a t o r :
  queue_wf a → occupancy a = MAX_COMMANDS - 1 → enqueue_command a t o r = a.
Proof.
  intros Hwf Hfull.
  apply (enqueue_full a {| type := t; order := o; row := r |} Hwf Hfull).
Qed.

(** X14: with seven commands waiting the keys [n], [p] and [j] queue
    nothing, and still print the line that says they did: the shared data
    and the engine are as before, the output has one more line. *)
Theorem full_queue_keys_still_confirm k s :
  queue_wf (ad s) → occupancy (ad s) = MAX_COMMANDS - 1 →
  let co := current_order (modext (ad s)) in
  let cr := current_row (modext (ad s)) in
  (k = chr "n" ∨ k = chr "N" → co + 1 < num_orders (modext (ad s)) →
   handle_key k s = printf (MsgNextOrderQueued (co + 1)) s)
  ∧ (k = chr "p" ∨ k = chr "P" →
     handle_key k s
     = printf (MsgPreviousOrderQueued (if decide (co > 0) then co - 1 else 0)) s)
  ∧ (k = chr "j" ∨ k = chr "J" →
     handle_key k s = printf (MsgLoopTillRowQueued co cr) s).
Proof.
  intros Hwf Hfull co cr. subst co cr. split_and!.
  - intros Hk Hnext. unfold handle_key. unfold_getters. chr_consts.
    destruct Hk as [-> | ->]; simpl; rewrite decide_True by done;
      by rewrite enqueue_command_full, set_ad_id.
  - intros Hk. unfold handle_key. unfold_getters. chr_consts.
    destruct Hk as [-> | ->]; simpl; by rewrite enqueue_command_full, set_ad_id.
  - intros Hk. unfold handle_key. unfold_getters. chr_consts.
    destruct Hk as [-> | ->]; simpl; by rewrite enqueue_command_full, set_ad_id.
Qed.

Lemma full_queue_keys_still_confirm_witness :
  handle_key (chr "p") (initial_main_state (enqueue_all demo_ad nine_commands))
  = printf (MsgPreviousOrderQueued 0)
      (initial_main_state (enqueue_all demo_ad nine_commands)).
Proof.
  pose proof (full_queue_keys_still_confirm (chr "p")
                (initial_main_state (enqueue_all demo_ad nine_commands))) as H.
  cbv zeta in H. destruct H as (_ & Hp & _).
  - apply enqueue_all_wf, demo_ad_wf.
  - by vm_compute.
  - apply Hp. by left.
Defined.

(** ** X15: entering pattern mode *)

Lemma handle_key_mode k s :
  k = chr "s" ∨ k = chr "S" →
  prev_row (handle_key k s) = prev_row s
  ∧ ad (handle_key k s)
    = if decide (pattern_mode (ad s) = 0)
      then set_pending_pattern_mode_order (-1)
             (set_loop_pattern (order_pattern (modext (ad s)) (current_order (modext (ad s))))
                (set_loop_order (current_order (modext (ad s)))
                   (set_pattern_mode 1 (ad s))))
      else set_pattern_mode 0 (ad s).
Proof.
  intros Hk. unfold handle_key. unfold_getters. chr_consts.
  destruct (lnot_cases (pattern_mode (ad s))) as [[Hz Hl]|[Hnz Hl]].
  - rewrite (decide_True (P := pattern_mode (ad s) = 0)) by done.
    destruct Hk as [-> | ->]; simpl; rewrite Hl; done.
  - rewrite (decide_False (P := pattern_mode (ad s) = 0)) by done.
    destruct Hk as [-> | ->]; simpl; rewrite Hl; done.
Qed.

Lemma pattern_loop_block_mode s :
  pattern_mode (ad (pattern_loop_block s)) = pattern_mode (ad s).
Proof.
  unfold pattern_loop_block, pattern_wrap, pattern_snap_back.
  walk_tests; engine_simpl; done.
Qed.

(** X15: a turn of the control loop that takes [s] in song mode, no loop
    till row being in force, binds the loop to the order the cursor is on
    and drops any pending switch; the cursor stays on that order.  The
    previous row is not reset on the way in: if the one left over equals
    the last row of the pattern and the cursor is on row 0, the turn
    counts a wrap and sets the position to row 0 of the order at once;
    otherwise the engine is not called.  Taken in pattern mode, [s] only
    clears the mode: a switch that was pending stays recorded, and is
    dropped when pattern mode is entered again. *)
Theorem entering_pattern_mode k s :
  k = chr "s" ∨ k = chr "S" →
  let a := ad s in
  let co := current_order (modext a) in
  (pattern_mode a = 0 → is_looping_till a = 0 →
   let s' := main_iteration k s in
   let stale_wrap := prev_row s = pattern_num_rows (modext a) (order_pattern (modext a) co) - 1
                     ∧ current_row (modext a) = 0 in
   pattern_mode (ad s') = 1
   ∧ loop_order (ad s') = co
   ∧ loop_pattern (ad s') = order_pattern (modext a) co
   ∧ pending_pattern_mode_order (ad s') = -1
   ∧ current_order (modext (ad s')) = co
   ∧ prev_row s' = current_row (modext a)
   ∧ (stale_wrap → jumps_issued (modext a) (modext (ad s')) [CallSetPosition co 0])
   ∧ (¬ stale_wrap → modext (ad s') = modext a))
  ∧ (pattern_mode a ≠ 0 →
     ad (handle_key k s) = set_pattern_mode 0 a
     ∧ pending_pattern_mode_order (ad (handle_key k (handle_key k s))) = -1
     ∧ loop_order (ad (handle_key k (handle_key k s))) = co).
Proof.
  intros Hk a co. subst a co. split.
  - intros Hsong Hnoloop s' stale_wrap. subst s' stale_wrap.
    unfold main_iteration. rewrite decide_True.
    2:{ revert Hk. chr_consts. lia. }
    destruct (handle_key_mode k s Hk) as (Hprev & Had).
    rewrite decide_True in Had by done.
    set (s1 := handle_key k s) in *.
    assert (pattern_mode (ad s1) = 1) as Hp1 by (by rewrite Had).
    assert (is_looping_till (ad s1) = 0) as Hl1 by (by rewrite Had).
    rewrite transport_pattern_loop by (done || by rewrite Hp1).
    destruct (pattern_loop_block_spec s1)
      as (Hlo & Hlp & Hpend & Hpr & Hj & Hco & _ & Hidle).
    assert (adopts s1 = false) as Hadopt.
    { unfold adopts. rewrite Had. simpl. by rewrite andb_false_r. }
    assert (loop_target s1 = current_order (modext (ad s))) as Htarget.
    { unfold loop_target. rewrite Hadopt, Had. done. }
    assert (modext (ad s1) = modext (ad s)) as Hm1 by (by rewrite Had).
    assert (wraps s1 = true
            ↔ prev_row s
              = pattern_num_rows (modext (ad s))
                  (order_pattern (modext (ad s)) (current_order (modext (ad s)))) - 1
              ∧ current_row (modext (ad s)) = 0) as Hwraps.
    { rewrite wraps_true, Hprev, Had. done. }
    rewrite Hadopt, Htarget, Hm1 in *.
    rewrite decide_False in Hpr by (intros ?; done).
    rewrite decide_False in Hj by (intros ?; done).
    rewrite app_nil_r in Hj.
    split_and!; try done.
    + by rewrite pattern_loop_block_mode.
    + by rewrite Hlp, Had.
    + by rewrite Hpend, Had.
    + intros Hw. apply Hwraps in Hw. by rewrite Hw in Hj.
    + intros Hnw. apply Hidle; [|done].
      destruct (wraps s1); [|done]. exfalso. apply Hnw. by apply Hwraps.
  - intros Hpat. destruct (handle_key_mode k s Hk) as (_ & Had).
    rewrite decide_False in Had by done.
    destruct (handle_key_mode k (handle_key k s) Hk) as (_ & Had2).
    rewrite decide_True in Had2 by (by rewrite Had).
    rewrite Had2, Had. done.
Qed.

Lemma entering_pattern_mode_witness :
  loop_order (ad (main_iteration (chr "s") playing_at_2_5)) = 2.
Proof.
  pose proof (entering_pattern_mode (chr "s") playing_at_2_5 (or_introl eq_refl)) as H.
  cbv zeta in H. destruct H as (Hin & _).
  destruct Hin as (_ & Hlo & _); [reflexivity|reflexivity|exact Hlo].
Defined.
